(** * Giophantus lab implementation: finite-field polynomial arithmetic,
      key generation, encryption and decryption.

    Two variants of the program are embedded:
    - [Proc]: the procedural C++20 file (free functions [mod], [add], [mul],
      class [Polynomial] reading the ambient constants [q], [n], [l], [dX],
      [random_polynomial], [keygen], [encrypt], [decrypt]);
    - [OOP]: [main.cpp] (classes [FieldArithmetic], [Polynomial] with the
      compile-time constant [MODULO], [RandomPolynomialGenerator],
      [GiophantusKeyGen]).

    C++ [int] is a 32-bit two's complement integer, modelled as [Z] with the
    wrap-around of [+], [-] and [*] written out; [size_t] is 64-bit unsigned.
    Signed overflow is undefined in C++: the theorems are stated on inputs
    for which no [int] operation overflows, where the wrap-around is the
    identity.  [std::vector<int>] is a [list Z], updated in place with
    stdpp's list insert.  A vector constructor that throws
    [std::length_error] is [None]; so is a division by zero. *)

From Stdlib Require Import ZArith Lia List.
From stdpp Require Import base option list.
Import ListNotations.

Local Open Scope Z_scope.

(** ** Machine integers *)

Definition INT_MAX : Z := 2 ^ 31 - 1.
Definition INT_MIN : Z := - 2 ^ 31.

(** Result of an [int] operation whose mathematical value is [z]. *)
Definition wrap_int (z : Z) : Z := (z + 2 ^ 31) mod 2 ^ 32 - 2 ^ 31.

(** Value of a [size_t] expression whose mathematical value is [z]. *)
Definition to_size_t (z : Z) : Z := z mod 2 ^ 64.

(** [std::vector<int>::max_size()] of a 64-bit implementation: the
    constructor [vector(count, 0)] throws [std::length_error] above it. *)
Definition vector_max_size : Z := 2 ^ 61 - 1.

(** [std::vector<int> v(count, 0)] for a [size_t] count. *)
Definition new_vector (count : Z) : option (list Z) :=
  if count <=? vector_max_size then Some (replicate (Z.to_nat count) 0) else None.

(** ** Field arithmetic ([mod], [add], [mul], [sub]; the same bodies are the
    static members of [FieldArithmetic] in [main.cpp]) *)

Module FieldArithmetic.

(** [((a % p) + p) % p]; C++ [%] truncates, as [Z.rem] does. *)
Definition mod_ (a p : Z) : Z :=
    Z.rem (wrap_int (Z.rem a p + p)) p.

Definition add (a b p : Z) : Z := mod_ (wrap_int (a + b)) p.

Definition mul (a b p : Z) : Z := mod_ (wrap_int (a * b)) p.

Definition sub (a b p : Z) : Z := mod_ (wrap_int (a - b)) p.

End FieldArithmetic.

(** ** Loops *)

(** [for (size_t i = 0; i < count; ++i) s = body i s]. *)
Definition for_range {S : Type} (count : nat) (body : nat -> S -> S) (s : S) : S :=
  fold_left (fun acc i => body i acc) (seq 0 count) s.

(** ** Polynomials

    Class [Polynomial] has the single data member [coeffs], little-endian.
    The operators of both variants have the same bodies, up to the modulus
    they read ([q] in the procedural file, [MODULO] in [main.cpp]); they are
    written once, over the modulus [p]. *)

Definition Polynomial : Type := list Z.

Section PolynomialOps.

Variable p : Z.

(** [int degree() const { return coeffs.size() - 1; }]: computed in
    [size_t], converted to [int]. *)
Definition degree (A : Polynomial) : Z :=
    wrap_int (to_size_t (Z.of_nat (length A) - 1)).

(** [while (!coeffs.empty() && coeffs.back() == 0) coeffs.pop_back();]
    The loop works on the back of the vector: [pop_zeros] runs it on the
    reversed list. *)
Fixpoint pop_zeros (r : list Z) : list Z :=
    match r with
    | c :: r' => if c =? 0 then pop_zeros r' else r
    | [] => []
    end.

Definition trim (A : Polynomial) : Polynomial := rev (pop_zeros (rev A)).

(** [(i < coeffs.size()) ? coeffs[i] : 0]; also the read [coeffs[i]] of an
    index in range. *)
Definition coeff (A : list Z) (i : nat) : Z := nth i A 0.

(** [operator+] *)
Definition poly_add (A B : Polynomial) : Polynomial :=
    let size := Nat.max (length A) (length B) in
    for_range size
      (fun i result =>
         <[ i := FieldArithmetic.add (coeff A i) (coeff B i) p ]> result)
      (replicate size 0).

(** Inner loop of [operator*], for a fixed [i]. *)
Definition mul_row (A B : Polynomial) (i : nat) (result : list Z) : list Z :=
    for_range (length B)
      (fun j result =>
         <[ (i + j)%nat :=
              FieldArithmetic.add (coeff result (i + j))
                (FieldArithmetic.mul (coeff A i) (coeff B j) p) p ]> result)
      result.

(** [operator*]: the size [coeffs.size() + other.coeffs.size() - 1] is a
    [size_t] expression. *)
Definition poly_mul (A B : Polynomial) : option Polynomial :=
    result ← new_vector (to_size_t (Z.of_nat (length A) + Z.of_nat (length B) - 1));
    Some (for_range (length A) (mul_row A B) result).

(** [eval] / [evaluate]: the pair is [(value, power)]. *)
Definition poly_eval (A : Polynomial) (t : Z) : Z :=
    fst (fold_left
           (fun '(value, power) c =>
              (FieldArithmetic.add value (FieldArithmetic.mul c power p) p,
               FieldArithmetic.mul power t p))
           A (0, 1)).

End PolynomialOps.

(** [result.coeffs.resize(count, 0)] for a [size_t] count. *)
Definition resize (v : list Z) (count : Z) : option (list Z) :=
  if count <=? vector_max_size
  then Some (take (Z.to_nat count) v
               ++ replicate (Z.to_nat count - length v)%nat 0)
  else None.

(** ** Randomness source

    [std::mt19937] is modelled by the sequence of its future outputs and a
    cursor, so that a state of the source is any sequence of outputs.
    [std::uniform_int_distribution<>(a, b)] is modelled from its contract:
    it consumes one output and maps it into the closed interval [a .. b],
    every value of which is reached by some output; the C++ library
    requires [a <= b]. *)

Record Rng : Type := mkRng { raw : nat -> Z; pos : nat }.

Definition uniform_int_distribution (a b : Z) (gen : Rng) : Z * Rng :=
  (a + raw gen (pos gen) mod (b - a + 1), mkRng (raw gen) (S (pos gen))).

(** [for (int& c : coeffs) c = dist(gen);] and
    [std::generate(coeffs.begin(), coeffs.end(), [&]() { return dist(gen); })] *)
Definition fill (a b : Z) (coeffs : list Z) (gen : Rng) : list Z * Rng :=
  for_range (length coeffs)
    (fun i '(v, g) =>
       let '(c, g') := uniform_int_distribution a b g in (<[ i := c ]> v, g'))
    (coeffs, gen).

(** Result of running a loop for at most a given number of iterations:
    the value returned, an exception, or the loop still running. *)
Inductive outcome (A : Type) : Type :=
| Done (a : A)
| Threw
| OutOfFuel.
Arguments Done {A} a.
Arguments Threw {A}.
Arguments OutOfFuel {A}.

(** ** The procedural variant *)

Module Proc.

Module Params.
Record GiophantusParams : Type := mk {
    q : Z; n : Z; l : Z; dX : Z; dr : Z; mlen : Z
  }.
End Params.
Abbreviation GiophantusParams := Params.GiophantusParams.

Definition param128 : GiophantusParams := Params.mk 17 11 4 2 2 32.
Definition param192 : GiophantusParams := Params.mk 23 19 6 3 3 48.
Definition param256 : GiophantusParams := Params.mk 29 23 8 4 4 64.

(** [std::uniform_int_distribution<> dist(0, max_coeff - 1);
     std::vector<int> coeffs(degree + 1);] *)
Definition random_polynomial (degree max_coeff : Z) (gen : Rng)
  : option (Polynomial * Rng) :=
  coeffs ← new_vector (to_size_t (wrap_int (degree + 1)));
  Some (fill 0 (wrap_int (max_coeff - 1)) coeffs gen).

(** Placeholder of the source: accepts every polynomial. *)
Definition is_irreducible (poly : Polynomial) : bool := true.

Section Ambient.

(** The constants [q], [n], [l], [dX] that the class [Polynomial],
    [keygen], [generate_irreducible_X] and [decrypt] read without taking
    a parameter set; their declarations are not part of the file. *)
Variables q n l dX : Z.

Definition op_plus (A B : Polynomial) : Polynomial := poly_add q A B.

Definition op_times (A B : Polynomial) : option Polynomial := poly_mul q A B.

Definition eval (A : Polynomial) (t : Z) : Z := poly_eval q A t.

(** [mod_tn]: [Polynomial result;] is [[0]]; [n] is converted to
    [size_t] by [resize] and by [i % n]; [i % 0] is undefined. *)
Definition mod_tn (A : Polynomial) : option Polynomial :=
  result ← resize [0] (to_size_t n);
  if (to_size_t n =? 0) && negb (length A =? 0)%nat then None
  else
    Some (for_range (length A)
            (fun i result =>
               let k := Z.to_nat (Z.of_nat i mod to_size_t n) in
               <[ k := FieldArithmetic.add (coeff result k) (coeff A i) q ]> result)
            result).

(** [while (true) { X = random_polynomial(dX, q - 1);
                    if (is_irreducible(X)) break; }]
    with the validity test as a parameter. *)
Fixpoint generate_irreducible_X_with (valid : Polynomial -> bool) (fuel : nat)
    (ux uy : Polynomial) (gen : Rng) : outcome (Polynomial * Rng) :=
  match fuel with
  | O => OutOfFuel
  | S fuel' =>
      match random_polynomial dX (wrap_int (q - 1)) gen with
      | None => Threw
      | Some (X, gen') =>
          if valid X then Done (X, gen')
          else generate_irreducible_X_with valid fuel' ux uy gen'
      end
  end.

Definition generate_irreducible_X :=
  generate_irreducible_X_with is_irreducible.

Definition keygen_with (valid : Polynomial -> bool) (fuel : nat) (gen : Rng)
  : outcome (Polynomial * Polynomial * Polynomial * Rng) :=
  match random_polynomial (wrap_int (n - 1)) l gen with
  | None => Threw
  | Some (ux, g1) =>
      match random_polynomial (wrap_int (n - 1)) l g1 with
      | None => Threw
      | Some (uy, g2) =>
          match generate_irreducible_X_with valid fuel ux uy g2 with
          | Done (X, g3) => Done (ux, uy, X, g3)
          | Threw => Threw
          | OutOfFuel => OutOfFuel
          end
      end
  end.

Definition keygen := keygen_with is_irreducible.

Definition encrypt (message public_key : Polynomial)
    (params : GiophantusParams) (gen : Rng) : option (Polynomial * Rng) :=
  '(r, g1) ← random_polynomial (Params.dr params)
               (wrap_int (Params.q params - 1)) gen;
  '(e, g2) ← random_polynomial (wrap_int (Params.dX params + Params.dr params))
               (wrap_int (Params.l params - 1)) g1;
  product ← op_times public_key r;
  mask ← mod_tn product;
  ciphertext ← mod_tn (op_plus (op_plus message mask) e);
  Some (ciphertext, g2).

Definition decrypt (ciphertext ux uy : Polynomial) : Polynomial :=
  for_range (length ciphertext)
    (fun i substituted =>
       <[ i := FieldArithmetic.mod_ (coeff substituted i) l ]> substituted)
    ciphertext.

End Ambient.

End Proc.

(** ** The object-oriented variant ([main.cpp]) *)

Module OOP.

Definition MODULO : Z := 17.
Definition DEGREE : Z := 11.
Definition NOISE_BOUND : Z := 4.

Module Params.
Record GiophantusParams : Type := mk {
    modulo : Z; degree : Z; noise_bound : Z; block_size : Z
  }.
End Params.
Abbreviation GiophantusParams := Params.GiophantusParams.

Definition param128 : GiophantusParams := Params.mk 17 11 4 32.
Definition param192 : GiophantusParams := Params.mk 23 19 6 48.
Definition param256 : GiophantusParams := Params.mk 29 23 8 64.

Definition op_plus (A B : Polynomial) : Polynomial := poly_add MODULO A B.

Definition op_times (A B : Polynomial) : option Polynomial := poly_mul MODULO A B.

Definition evaluate (A : Polynomial) (x modulo : Z) : Z := poly_eval modulo A x.

(** [RandomPolynomialGenerator::generate]:
    [std::uniform_int_distribution<> dist(0, max_coeff);] *)
Definition generate (degree max_coeff : Z) (gen : Rng) : option (Polynomial * Rng) :=
  coeffs ← new_vector (to_size_t (wrap_int (degree + 1)));
  Some (fill 0 max_coeff coeffs gen).

Record GiophantusKey : Type := mkKey {
    ux : Polynomial; uy : Polynomial; X : Polynomial
  }.

(** [GiophantusKeyGen::generate]; [gen] is the state of the freshly seeded
    [RandomPolynomialGenerator rng]. *)
Definition keygen_generate (params : GiophantusParams) (gen : Rng)
  : option (GiophantusKey * Rng) :=
  '(ux, g1) ← generate (Params.degree params) (Params.noise_bound params) gen;
  '(uy, g2) ← generate (Params.degree params) (Params.noise_bound params) g1;
  '(X, g3) ← generate (Params.degree params) (wrap_int (Params.modulo params - 1)) g2;
  Some (mkKey ux uy X, g3).

(** How a test function ends: it returns, an [assert] fails, or an
    exception leaves it. *)
Inductive test_result : Type :=
| Passed
| AssertionFailed
| Raised.

(** [test_keygen]: [gen] is the state of the generator that
    [GiophantusKeyGen::generate] seeds; the two [assert]s are on the
    degrees of the secrets. *)
Definition test_keygen (params : GiophantusParams) (gen : Rng) : test_result :=
  match keygen_generate params gen with
  | None => Raised
  | Some (key, _) =>
      if degree (ux key) <=? Params.degree params then
        if degree (uy key) <=? Params.degree params then Passed
        else AssertionFailed
      else AssertionFailed
  end.

(** [test_polynomial_operations]: the function returns nothing; the model
    returns its two locals [sum] and [product]. *)
Definition test_polynomial_operations (params : GiophantusParams) (gen : Rng)
  : option (Polynomial * Polynomial) :=
  '(p1, g1) ← generate (Params.degree params) (Params.noise_bound params) gen;
  '(p2, g2) ← generate (Params.degree params) (Params.noise_bound params) g1;
  let sum := op_plus p1 p2 in
  product ← op_times p1 p2;
  Some (sum, product).

(** Sequencing of two calls: the second runs when the first returned. *)
Definition and_then (first second : test_result) : test_result :=
  match first with
  | Passed => second
  | _ => first
  end.

Definition ran (r : option (Polynomial * Polynomial)) : test_result :=
  match r with
  | Some _ => Passed
  | None => Raised
  end.

(** [main]: every test function seeds a generator of its own from
    [std::random_device]; [device k] is the state of the [k]-th generator.
    [Passed] stands for [return 0]. *)
Definition main (device : nat -> Rng) : test_result :=
  and_then (test_keygen param128 (device 0%nat))
    (and_then (ran (test_polynomial_operations param128 (device 1%nat)))
       (and_then (test_keygen param192 (device 2%nat))
          (and_then (ran (test_polynomial_operations param192 (device 3%nat)))
             (and_then (test_keygen param256 (device 4%nat))
                (ran (test_polynomial_operations param256 (device 5%nat))))))).

End OOP.

(** ** Vocabulary of the statements *)

(** The modulus of a parameter set: a positive [int] small enough for
    [(a % p) + p] not to overflow. *)
Definition modulus_ok (p : Z) : Prop := 0 < p < 2 ^ 30.

(** Coefficients whose pairwise products fit in an [int]. *)
Definition small (c : Z) : Prop := - 46340 <= c <= 46340.

(** The convolution written from the specification: the sum over all index
    pairs [(i, j)], [i < len A], [j < len B], with [i + j = k], of
    [A[i] * B[j]], over the integers. *)
Fixpoint row_sum (a : Z) (B : list Z) (i k nj : nat) : Z :=
  match nj with
  | O => 0
  | S j => row_sum a B i k j + (if (i + j =? k)%nat then a * coeff B j else 0)
  end.

Fixpoint conv_upto (A B : list Z) (k ni : nat) : Z :=
  match ni with
  | O => 0
  | S i => conv_upto A B k i + row_sum (coeff A i) B i k (length B)
  end.

Definition convolution (A B : list Z) (k : nat) : Z :=
  conv_upto A B k (length A).

(** Every coefficient is a normalised field element. *)
Definition in_field (p : Z) (v : list Z) : Prop := Forall (fun c => 0 <= c < p) v.

(** The operands of a product for which the result vector can be
    allocated: not both empty, and no longer than a vector can be. *)
Definition product_fits (A B : Polynomial) : Prop :=
  (0 < length A + length B)%nat /\
  Z.of_nat (length A) + Z.of_nat (length B) - 1 <= vector_max_size.

(** The loop of [mod_tn] over a result vector of [N] cells. *)
Definition reduce_loop (q : Z) (N : nat) (A : list Z) (count : nat) (v : list Z) : list Z :=
  for_range count
    (fun i result =>
       let k := (i mod N)%nat in
       <[ k := FieldArithmetic.add (coeff result k) (coeff A i) q ]> result)
    v.

(** The ring dimension: a positive [int]. *)
Definition dimension_ok (n : Z) : Prop := 1 <= n <= INT_MAX.

(** The ambient constants for which [keygen] draws without leaving the
    domain of [int] and of the distribution. *)
Definition keygen_params_ok (q n l dX : Z) : Prop :=
  dimension_ok n /\ 0 < l <= INT_MAX /\ 0 <= dX < INT_MAX /\ 2 <= q <= INT_MAX.

(** The parameter sets with which [encrypt] draws without leaving the
    domain of [int] and of the distribution. *)
Definition encrypt_params_ok (params : Proc.GiophantusParams) : Prop :=
  0 <= Proc.Params.dr params < INT_MAX /\
  0 <= Proc.Params.dX params /\
  Proc.Params.dX params + Proc.Params.dr params < INT_MAX /\
  2 <= Proc.Params.q params <= INT_MAX /\
  2 <= Proc.Params.l params <= INT_MAX.

(** The invariants of a parameter set, as the specification lists them. *)
Definition data_model_invariants (params : Proc.GiophantusParams) : Prop :=
  Znumtheory.prime (Proc.Params.q params) /\
  1 <= Proc.Params.n params /\
  0 < Proc.Params.l params < Proc.Params.q params /\
  0 <= Proc.Params.dX params /\ 0 <= Proc.Params.dr params /\
  Proc.Params.mlen params <= Proc.Params.n params.

(** A parameter set that satisfies the invariants of the data model: the
    preset [param128] with [mlen] lowered to [n]. *)
Definition param_small : Proc.GiophantusParams := Proc.Params.mk 17 11 4 2 2 11.

(** [Polynomial(int degree = 0) : coeffs(degree + 1, 0)], the constructor of
    both variants. *)
Definition Polynomial_of_degree (d : Z) : option Polynomial :=
  new_vector (to_size_t (wrap_int (d + 1))).

(** Sum of [h 0], ..., [h (m - 1)]. *)
Fixpoint sum_upto (h : nat -> Z) (m : nat) : Z :=
  match m with
  | O => 0
  | S i => sum_upto h i + h i
  end.

(** Sum of the coefficients [A[i]], [i < count], whose index is congruent
    to [k] modulo [N]. *)
Definition fold_sum (A : list Z) (N k count : nat) : Z :=
  sum_upto (fun i => if (i mod N =? k)%nat then coeff A i else 0) count.

(** Value of the polynomial at [t], over the integers. *)
Definition polynomial_value (A : list Z) (t : Z) : Z :=
  sum_upto (fun i => coeff A i * t ^ Z.of_nat i) (length A).

(** Coefficients that can be added to a field element without leaving
    [int]. *)
Definition addable (c : Z) : Prop := - 2 ^ 30 <= c <= 2 ^ 30.

(** A modulus whose field elements have products that fit in an [int]. *)
Definition product_modulus_ok (p : Z) : Prop := 0 < p <= 46341.

(** * Properties *)

(** ** The embedding on small inputs *)

Example product_of_small_polynomials :
  poly_mul 17 [1; 2; 3] [4; 5] = Some [4; 13; 5; 15].
Proof. reflexivity. Qed.

Example sum_pads_the_shorter_operand :
  poly_add 17 [1; 2; 3] [16; 5] = [0; 7; 3].
Proof. reflexivity. Qed.

Example reduction_folds_modulo_the_dimension :
  Proc.mod_tn 17 3 [1; 2; 3; 4; 5; 6; 7] = Some [12; 7; 9].
Proof. reflexivity. Qed.

Example trim_drops_trailing_zeros : trim [1; 0; 3; 0; 0] = [1; 0; 3].
Proof. reflexivity. Qed.

Example degree_counts_untrimmed_coefficients : degree [0; 0] = 1.
Proof. reflexivity. Qed.

Example normalisation_of_a_negative_value : FieldArithmetic.mod_ (-6) 4 = 2.
Proof. reflexivity. Qed.

(** ** Machine integers and field arithmetic *)

Lemma wrap_int_id (z : Z) : INT_MIN <= z <= INT_MAX -> wrap_int z = z.
Proof.
  unfold INT_MIN, INT_MAX, wrap_int. intros Hz.
  rewrite Z.mod_small; lia.
Qed.

Lemma to_size_t_id (z : Z) : 0 <= z < 2 ^ 64 -> to_size_t z = z.
Proof. intros Hz. unfold to_size_t. now apply Z.mod_small. Qed.

Module FieldFacts.
Import FieldArithmetic.

Lemma mod_spec (a p : Z) : modulus_ok p -> mod_ a p = a mod p.
Proof.
  unfold modulus_ok, mod_. intros Hp.
  assert (Hr : - p < Z.rem a p < p).
  { pose proof (Z.rem_bound_abs a p). destruct (Z.abs_spec (Z.rem a p)), (Z.abs_spec p); lia. }
  rewrite wrap_int_id by (unfold INT_MIN, INT_MAX; lia).
  rewrite Z.rem_mod_nonneg by lia.
  rewrite Z.add_mod, Z.mod_same, Z.add_0_r, Z.mod_mod by lia.
  destruct (Z_le_gt_dec 0 a) as [Ha | Ha].
  - rewrite Z.rem_mod_nonneg by lia. apply Z.mod_mod; lia.
  - pose proof (Z.rem_opp_l' a p) as Ho.
    assert (Hm : Z.rem a p = - ((- a) mod p)).
    { rewrite <- Z.rem_mod_nonneg by lia. lia. }
    rewrite Hm. rewrite <- (Z.opp_involutive a) at 2.
    set (b := - a) in *.
    rewrite (Z.div_mod b p) at 2 by lia.
    replace (- (p * (b / p) + b mod p)) with (- (b mod p) + (- (b / p)) * p) by ring.
    now rewrite Z.mod_add by lia.
Qed.

Lemma mod_range (a p : Z) : modulus_ok p -> 0 <= mod_ a p < p.
Proof.
  intros Hp. rewrite mod_spec by assumption.
  apply Z.mod_pos_bound. unfold modulus_ok in Hp; lia.
Qed.

Lemma mod_fixed (a p : Z) : modulus_ok p -> 0 <= a < p -> mod_ a p = a.
Proof. intros Hp Ha. rewrite mod_spec by assumption. now apply Z.mod_small. Qed.

Lemma add_spec (a b p : Z) :
  modulus_ok p -> INT_MIN <= a + b <= INT_MAX -> add a b p = (a + b) mod p.
Proof. intros Hp Hab. unfold add. now rewrite wrap_int_id, mod_spec. Qed.

Lemma add_range (a b p : Z) : modulus_ok p -> 0 <= add a b p < p.
Proof. intros Hp. apply mod_range, Hp. Qed.

Lemma mul_spec (a b p : Z) :
  modulus_ok p -> INT_MIN <= a * b <= INT_MAX -> mul a b p = (a * b) mod p.
Proof. intros Hp Hab. unfold mul. now rewrite wrap_int_id, mod_spec. Qed.

Lemma mul_range (a b p : Z) : modulus_ok p -> 0 <= mul a b p < p.
Proof. intros Hp. apply mod_range, Hp. Qed.

Lemma small_product (a b : Z) : small a -> small b -> INT_MIN <= a * b <= INT_MAX.
Proof. unfold small, INT_MIN, INT_MAX. intros Ha Hb. nia. Qed.

Lemma add_zero_l (a p : Z) : modulus_ok p -> 0 <= a < p -> add 0 a p = a.
Proof.
  intros Hp Ha. unfold modulus_ok in Hp.
  rewrite add_spec by (unfold INT_MIN, INT_MAX; lia || assumption).
  now apply Z.mod_small.
Qed.

Lemma add_zero_r (a p : Z) : modulus_ok p -> 0 <= a < p -> add a 0 p = a.
Proof.
  intros Hp Ha. unfold modulus_ok in Hp.
  rewrite add_spec by (unfold INT_MIN, INT_MAX; lia || assumption).
  rewrite Z.add_0_r. now apply Z.mod_small.
Qed.

End FieldFacts.

(** ** Loops and vectors *)

Lemma for_range_S {S : Type} (count : nat) (body : nat -> S -> S) (s : S) :
  for_range (Datatypes.S count) body s = body count (for_range count body s).
Proof.
  unfold for_range. rewrite seq_S, fold_left_app. reflexivity.
Qed.

Lemma for_range_ext {S : Type} (count : nat) (f g : nat -> S -> S) (s : S) :
  (forall i t, (i < count)%nat -> f i t = g i t) ->
  for_range count f s = for_range count g s.
Proof.
  induction count as [| k IH]; intros Hfg; [reflexivity |].
  rewrite !for_range_S, IH by (intros; apply Hfg; lia).
  apply Hfg. lia.
Qed.

Lemma coeff_insert (v : list Z) (i j : nat) (x : Z) :
  coeff (<[ i := x ]> v) j =
  if (i =? j)%nat && (i <? length v)%nat then x else coeff v j.
Proof.
  unfold coeff. rewrite !nth_lookup.
  destruct (Nat.eqb_spec i j) as [-> | Hne]; simpl.
  - destruct (Nat.ltb_spec j (length v)) as [Hlt | Hge].
    + now rewrite list_lookup_insert_eq.
    + now rewrite list_insert_ge.
  - now rewrite list_lookup_insert_ne.
Qed.

Lemma coeff_replicate (m k : nat) : coeff (replicate m 0) k = 0.
Proof.
  unfold coeff. rewrite nth_lookup.
  destruct (replicate m 0 !! k) as [c |] eqn:E; [| reflexivity].
  apply lookup_replicate in E. simpl. tauto.
Qed.

Lemma coeff_beyond (v : list Z) (k : nat) : (length v <= k)%nat -> coeff v k = 0.
Proof. intros H. unfold coeff. now apply nth_overflow. Qed.

Lemma coeff_ext (u v : list Z) :
  length u = length v -> (forall k, (k < length u)%nat -> coeff u k = coeff v k) -> u = v.
Proof. intros Hlen Hc. apply (nth_ext u v 0 0); assumption. Qed.

Lemma Forall_coeff (P : Z -> Prop) (v : list Z) :
  P 0 -> Forall P v -> forall k, P (coeff v k).
Proof.
  intros H0 Hv k. unfold coeff.
  destruct (Nat.lt_ge_cases k (length v)) as [Hlt | Hge].
  - rewrite List.Forall_forall in Hv. apply Hv, nth_In, Hlt.
  - now rewrite nth_overflow.
Qed.

Lemma coeff_Forall (P : Z -> Prop) (v : list Z) :
  (forall k, (k < length v)%nat -> P (coeff v k)) -> Forall P v.
Proof.
  intros H. apply List.Forall_forall. intros x Hx.
  destruct (In_nth v x 0 Hx) as (k & Hk & <-). now apply H.
Qed.

(** A loop that stores [f i] at index [i] builds the table of [f]. *)
Lemma for_range_store (f : nat -> Z) (m count : nat) (v : list Z) :
  length v = m -> (count <= m)%nat ->
  let r := for_range count (fun i result => <[ i := f i ]> result) v in
  length r = m /\
  forall k, coeff r k = if (k <? count)%nat then f k else coeff v k.
Proof.
  intros Hv. induction count as [| c IH]; intros Hc; simpl.
  - split; [assumption | reflexivity].
  - rewrite for_range_S. destruct IH as [IHlen IHc]; [lia |]. split.
    + now rewrite length_insert.
    + intros k. rewrite coeff_insert, IHlen, IHc.
      destruct (Nat.eqb_spec c k) as [-> | Hne]; simpl.
      * destruct (Nat.ltb_spec k m), (Nat.ltb_spec k (Datatypes.S k)); try lia; reflexivity.
      * destruct (Nat.ltb_spec k c), (Nat.ltb_spec k (Datatypes.S c)); try lia; reflexivity.
Qed.

(** ** Addition *)

Section AddFacts.

Variable p : Z.

Lemma poly_add_length (A B : Polynomial) :
  length (poly_add p A B) = Nat.max (length A) (length B).
Proof.
  unfold poly_add.
  apply (for_range_store (fun i => FieldArithmetic.add (coeff A i) (coeff B i) p)).
  - apply length_replicate.
  - lia.
Qed.

Lemma poly_add_coeff (A B : Polynomial) (k : nat) :
  (k < Nat.max (length A) (length B))%nat ->
  coeff (poly_add p A B) k = FieldArithmetic.add (coeff A k) (coeff B k) p.
Proof.
  intros Hk. unfold poly_add.
  destruct (for_range_store (fun i => FieldArithmetic.add (coeff A i) (coeff B i) p)
              (Nat.max (length A) (length B)) (Nat.max (length A) (length B))
              (replicate (Nat.max (length A) (length B)) 0)) as [_ Hc].
  - apply length_replicate.
  - lia.
  - rewrite Hc. destruct (Nat.ltb_spec k (Nat.max (length A) (length B))); [reflexivity | lia].
Qed.

End AddFacts.

(** ** Multiplication *)

Section MulFacts.

Variable p : Z.
Hypothesis Hp : modulus_ok p.

Lemma in_field_coeff (v : list Z) (k : nat) : in_field p v -> 0 <= coeff v k < p.
Proof.
  intros Hv. apply (Forall_coeff (fun c => 0 <= c < p)); [| exact Hv].
  unfold modulus_ok in Hp. lia.
Qed.

Lemma in_field_replicate (m : nat) : in_field p (replicate m 0).
Proof.
  apply coeff_Forall. intros k _. rewrite coeff_replicate.
  unfold modulus_ok in Hp. lia.
Qed.

Lemma in_field_insert (v : list Z) (i : nat) (x : Z) :
  in_field p v -> 0 <= x < p -> in_field p (<[ i := x ]> v).
Proof.
  intros Hv Hx. apply coeff_Forall. intros k _. rewrite coeff_insert.
  destruct ((i =? k)%nat && (i <? length v)%nat); [exact Hx | now apply in_field_coeff].
Qed.

Lemma row_sum_out (a : Z) (B : list Z) (i k nj : nat) :
  (k < i \/ i + nj <= k)%nat -> row_sum a B i k nj = 0.
Proof.
  induction nj as [| j IH]; intros Hk; simpl; [reflexivity |].
  rewrite IH by lia.
  destruct (Nat.eqb_spec (i + j) k); [lia | reflexivity].
Qed.

(** Invariant of the inner loop after [nj] iterations. *)
Lemma mul_row_upto (A B : Polynomial) (i nj : nat) (result : list Z) :
  Forall small A -> Forall small B ->
  in_field p result -> (i + nj <= length result)%nat ->
  let r := for_range nj
             (fun j result =>
                <[ (i + j)%nat :=
                     FieldArithmetic.add (coeff result (i + j))
                       (FieldArithmetic.mul (coeff A i) (coeff B j) p) p ]> result)
             result in
  length r = length result /\ in_field p r /\
  forall k, coeff r k = (coeff result k + row_sum (coeff A i) B i k nj) mod p.
Proof.
  intros HA HB Hres. induction nj as [| j IH]; intros Hlen; simpl.
  - repeat split; [exact Hres |]. intros k. rewrite Z.add_0_r.
    symmetry. apply Z.mod_small. now apply in_field_coeff.
  - rewrite for_range_S. destruct IH as (IHlen & IHf & IHc); [lia |].
    set (r := for_range j _ result) in *.
    assert (Hsmall : INT_MIN <= coeff A i * coeff B j <= INT_MAX).
    { apply FieldFacts.small_product; apply (Forall_coeff small); trivial; unfold small; lia. }
    assert (Hadd : FieldArithmetic.add (coeff r (i + j))
                     (FieldArithmetic.mul (coeff A i) (coeff B j) p) p
                   = (coeff r (i + j) + coeff A i * coeff B j) mod p).
    { pose proof (in_field_coeff r (i + j) IHf) as Hr.
      pose proof (FieldFacts.mul_range (coeff A i) (coeff B j) p Hp) as Hm.
      rewrite FieldFacts.add_spec; [| exact Hp |].
      - rewrite FieldFacts.mul_spec by assumption. apply Z.add_mod_idemp_r.
        unfold modulus_ok in Hp. lia.
      - unfold modulus_ok in Hp. unfold INT_MIN, INT_MAX. lia. }
    repeat split.
    + now rewrite length_insert.
    + apply in_field_insert; [exact IHf | apply FieldFacts.add_range, Hp].
    + intros k. rewrite coeff_insert, IHlen.
      destruct (Nat.eqb_spec (i + j) k) as [<- | Hne]; simpl.
      * destruct (Nat.ltb_spec (i + j) (length result)); [| lia].
        rewrite Hadd, IHc, Z.add_mod_idemp_l by (unfold modulus_ok in Hp; lia).
        f_equal. ring.
      * rewrite IHc. f_equal. ring.
Qed.

(** Invariant of the outer loop after [ni] rows. *)
Lemma mul_rows_upto (A B : Polynomial) (ni : nat) (result : list Z) :
  Forall small A -> Forall small B ->
  in_field p result -> (ni + length B <= S (length result))%nat ->
  let r := for_range ni (mul_row p A B) result in
  length r = length result /\ in_field p r /\
  forall k, coeff r k = (coeff result k + conv_upto A B k ni) mod p.
Proof.
  intros HA HB Hres. induction ni as [| i IH]; intros Hlen; simpl.
  - repeat split; [exact Hres |]. intros k. rewrite Z.add_0_r.
    symmetry. apply Z.mod_small. now apply in_field_coeff.
  - rewrite for_range_S. destruct IH as (IHlen & IHf & IHc); [lia |].
    set (r := for_range i _ result) in *.
    destruct (mul_row_upto A B i (length B) r HA HB IHf) as (Hl & Hf & Hc); [lia |].
    unfold mul_row. repeat split.
    + congruence.
    + exact Hf.
    + intros k. rewrite Hc, IHc, Z.add_mod_idemp_l by (unfold modulus_ok in Hp; lia).
      f_equal. ring.
Qed.

Lemma poly_mul_convolution (A B : Polynomial) :
  Forall small A -> Forall small B -> product_fits A B ->
  exists R, poly_mul p A B = Some R /\
            length R = (length A + length B - 1)%nat /\
            in_field p R /\
            forall k, coeff R k = convolution A B k mod p.
Proof.
  intros HA HB [Hne Hfit]. unfold poly_mul.
  rewrite to_size_t_id by (unfold vector_max_size in Hfit; lia).
  unfold new_vector. destruct (Z.leb_spec (Z.of_nat (length A) + Z.of_nat (length B) - 1) vector_max_size); [| lia].
  simpl.
  replace (Z.to_nat (Z.of_nat (length A) + Z.of_nat (length B) - 1))
    with (length A + length B - 1)%nat by lia.
  set (m := (length A + length B - 1)%nat).
  destruct (mul_rows_upto A B (length A) (replicate m 0) HA HB (in_field_replicate m))
    as (Hl & Hf & Hc).
  { rewrite length_replicate. unfold m. lia. }
  eexists. split; [reflexivity |]. repeat split.
  - rewrite Hl. apply length_replicate.
  - exact Hf.
  - intros k. rewrite Hc, coeff_replicate. reflexivity.
Qed.

Lemma poly_mul_empty : poly_mul p [] [] = None.
Proof. reflexivity. Qed.

End MulFacts.

Lemma poly_mul_some (p : Z) (A B : Polynomial) :
  product_fits A B ->
  exists R, poly_mul p A B = Some R /\ length R = (length A + length B - 1)%nat.
Proof.
  intros [Hne Hfit]. unfold poly_mul.
  rewrite to_size_t_id by (unfold vector_max_size in Hfit; lia).
  unfold new_vector.
  destruct (Z.leb_spec (Z.of_nat (length A) + Z.of_nat (length B) - 1) vector_max_size); [| lia].
  simpl. eexists. split; [reflexivity |].
  assert (Hrow : forall i v, length (mul_row p A B i v) = length v).
  { intros i v. unfold mul_row. generalize (length B) as nj.
    induction nj as [| j IH]; [reflexivity |].
    now rewrite for_range_S, length_insert. }
  assert (Hrows : forall ni v, length (for_range ni (mul_row p A B) v) = length v).
  { induction ni as [| i IH]; intros v; [reflexivity |].
    now rewrite for_range_S, Hrow. }
  rewrite Hrows, length_replicate. lia.
Qed.

(** ** Reduction modulo [t^n - 1] *)

Section ReduceFacts.

Variables q n : Z.
Hypothesis Hq : modulus_ok q.
Hypothesis Hn : dimension_ok n.

Lemma mod_tn_unfold (A : Polynomial) :
  Proc.mod_tn q n A =
  Some (reduce_loop q (Z.to_nat n) A (length A) (replicate (Z.to_nat n) 0)).
Proof.
  unfold dimension_ok, INT_MAX in Hn. unfold Proc.mod_tn.
  rewrite to_size_t_id by lia. unfold resize, vector_max_size.
  destruct (Z.leb_spec n (2 ^ 61 - 1)); [| lia]. simpl.
  destruct (Z.eqb_spec n 0); [lia |]. simpl.
  destruct (Z.to_nat n) as [| m] eqn:Em; [lia |].
  simpl. rewrite take_nil. simpl. rewrite Nat.sub_0_r.
  f_equal. unfold reduce_loop. apply for_range_ext.
  intros i t _. rewrite <- Em.
  replace (Z.to_nat (Z.of_nat i mod n)) with (i mod Z.to_nat n)%nat; [reflexivity |].
  rewrite <- (Z2Nat.id n) at 2 by lia.
  rewrite <- Nat2Z.inj_mod. now rewrite Nat2Z.id.
Qed.

Lemma reduce_loop_inv (N : nat) (A : list Z) (count : nat) (v : list Z) :
  in_field q v ->
  length (reduce_loop q N A count v) = length v /\
  in_field q (reduce_loop q N A count v).
Proof.
  intros Hv. unfold reduce_loop. induction count as [| c [IHl IHf]]; [easy |].
  rewrite for_range_S. cbv zeta. split.
  - now rewrite length_insert.
  - apply in_field_insert; try assumption. apply FieldFacts.add_range, Hq.
Qed.

(** Steps that read a zero coefficient leave the result unchanged. *)
Lemma reduce_loop_zero_steps (N : nat) (A : list Z) (c0 m : nat) (v : list Z) :
  in_field q v -> (forall i, (c0 <= i)%nat -> coeff A i = 0) ->
  reduce_loop q N A (c0 + m) v = reduce_loop q N A c0 v.
Proof.
  intros Hv HA. induction m as [| m IH].
  - now rewrite Nat.add_0_r.
  - rewrite Nat.add_succ_r. unfold reduce_loop in *. rewrite for_range_S, IH.
    cbv zeta. rewrite HA by lia.
    set (r := for_range c0 _ v).
    destruct (reduce_loop_inv N A c0 v Hv) as [_ Hf]. fold r in Hf. unfold reduce_loop in Hf. fold r in Hf.
    rewrite FieldFacts.add_zero_r by (trivial; now apply in_field_coeff).
    apply coeff_ext; [apply length_insert |].
    intros k _. rewrite coeff_insert.
    destruct (Nat.eqb_spec ((c0 + m) mod N) k) as [<- | _]; simpl; [| reflexivity].
    now destruct (_ <? _)%nat.
Qed.

Lemma reduce_loop_app_zeros (N : nat) (A : list Z) (k : nat) (v : list Z) :
  in_field q v ->
  reduce_loop q N (A ++ replicate k 0) (length A + k) v = reduce_loop q N A (length A) v.
Proof.
  intros Hv. rewrite reduce_loop_zero_steps; [| exact Hv |].
  - unfold reduce_loop. apply for_range_ext. intros i t Hi.
    unfold coeff. now rewrite app_nth1.
  - intros i Hi. unfold coeff. rewrite app_nth2 by lia. apply coeff_replicate.
Qed.

Lemma mod_tn_app_zeros (A : Polynomial) (k : nat) :
  Proc.mod_tn q n (A ++ replicate k 0) = Proc.mod_tn q n A.
Proof.
  rewrite !mod_tn_unfold, length_app, length_replicate.
  f_equal. apply reduce_loop_app_zeros, in_field_replicate, Hq.
Qed.

Lemma mod_tn_result (A R : Polynomial) :
  Proc.mod_tn q n A = Some R -> length R = Z.to_nat n /\ in_field q R.
Proof.
  rewrite mod_tn_unfold. intros [= <-].
  destruct (reduce_loop_inv (Z.to_nat n) A (length A) (replicate (Z.to_nat n) 0))
    as [Hl Hf]; [apply in_field_replicate, Hq |].
  split; [| exact Hf]. rewrite Hl. apply length_replicate.
Qed.

Lemma reduce_loop_prefix (R : list Z) (c : nat) :
  in_field q R -> (c <= length R)%nat ->
  let r := reduce_loop q (length R) R c (replicate (length R) 0) in
  length r = length R /\
  forall k, coeff r k = if (k <? c)%nat then coeff R k else 0.
Proof.
  intros HR. induction c as [| c IH]; intros Hc; simpl.
  - split; [apply length_replicate |]. intros k. apply coeff_replicate.
  - destruct IH as [IHl IHc]; [lia |]. unfold reduce_loop in *.
    rewrite for_range_S. cbv zeta. rewrite Nat.mod_small by lia.
    set (r := for_range c _ _) in *. split.
    + now rewrite length_insert.
    + intros k. rewrite coeff_insert, IHl, (IHc c).
      destruct (Nat.ltb_spec c c); [lia |].
      rewrite FieldFacts.add_zero_l by (trivial; now apply in_field_coeff).
      destruct (Nat.eqb_spec c k) as [-> | Hne]; simpl.
      * destruct (Nat.ltb_spec k (length R)), (Nat.ltb_spec k (S k)); try lia; reflexivity.
      * rewrite IHc.
        destruct (Nat.ltb_spec k c), (Nat.ltb_spec k (S c)); try lia; reflexivity.
Qed.

Lemma mod_tn_reduced (R : Polynomial) :
  length R = Z.to_nat n -> in_field q R -> Proc.mod_tn q n R = Some R.
Proof.
  intros Hlen HR. rewrite mod_tn_unfold, <- Hlen. f_equal.
  destruct (reduce_loop_prefix R (length R) HR) as [Hl Hc]; [lia |].
  apply coeff_ext; [exact Hl |].
  intros k Hk. rewrite Hc. rewrite Hl in Hk.
  destruct (Nat.ltb_spec k (length R)); [reflexivity | lia].
Qed.

End ReduceFacts.

(** ** Trimming *)

Lemma pop_zeros_app_zeros (zs r : list Z) :
  Forall (fun c => c = 0) zs -> pop_zeros (zs ++ r) = pop_zeros r.
Proof.
  induction 1 as [| c zs Hc _ IH]; [reflexivity |].
  simpl. subst c. exact IH.
Qed.

Lemma trim_app_zeros (A : Polynomial) (k : nat) :
  trim (A ++ replicate k 0) = trim A.
Proof.
  unfold trim. rewrite rev_app_distr, pop_zeros_app_zeros; [reflexivity |].
  apply List.Forall_forall. intros c Hc.
  apply in_rev, list_elem_of_In, elem_of_replicate in Hc. tauto.
Qed.

Lemma trim_zeros (k : nat) : trim (replicate k 0) = [].
Proof. apply (trim_app_zeros [] k). Qed.

Lemma coeff_app_zeros (A : list Z) (k i : nat) :
  coeff (A ++ replicate k 0) i = coeff A i.
Proof.
  unfold coeff. destruct (Nat.lt_ge_cases i (length A)) as [Hlt | Hge].
  - now rewrite app_nth1.
  - rewrite app_nth2, (nth_overflow A) by lia. apply coeff_replicate.
Qed.

(** ** Operations on zero polynomials *)

Section ZeroFacts.

Variable p : Z.
Hypothesis Hp : modulus_ok p.

Lemma poly_add_zeros_r (A : Polynomial) (k : nat) :
  in_field p A -> poly_add p A (replicate k 0) = A ++ replicate (k - length A) 0.
Proof.
  intros HA. apply coeff_ext.
  - rewrite poly_add_length, length_app, !length_replicate. lia.
  - intros i Hi. rewrite poly_add_length in Hi.
    rewrite poly_add_coeff by exact Hi.
    rewrite coeff_replicate, coeff_app_zeros.
    apply FieldFacts.add_zero_r; [exact Hp | now apply in_field_coeff].
Qed.

Lemma poly_add_zeros_l (A : Polynomial) (k : nat) :
  in_field p A -> poly_add p (replicate k 0) A = A ++ replicate (k - length A) 0.
Proof.
  intros HA. apply coeff_ext.
  - rewrite poly_add_length, length_app, !length_replicate. lia.
  - intros i Hi. rewrite poly_add_length in Hi.
    rewrite poly_add_coeff by exact Hi.
    rewrite coeff_replicate, coeff_app_zeros.
    apply FieldFacts.add_zero_l; [exact Hp | now apply in_field_coeff].
Qed.

Lemma mul_by_zero (a : Z) : FieldArithmetic.mul a 0 p = 0.
Proof.
  unfold FieldArithmetic.mul. rewrite Z.mul_0_r.
  change (wrap_int 0) with 0.
  rewrite FieldFacts.mod_spec by exact Hp. apply Z.mod_0_l.
  unfold modulus_ok in Hp. lia.
Qed.

Lemma mul_zero_by (b : Z) : FieldArithmetic.mul 0 b p = 0.
Proof.
  unfold FieldArithmetic.mul. rewrite Z.mul_0_l.
  change (wrap_int 0) with 0.
  rewrite FieldFacts.mod_spec by exact Hp. apply Z.mod_0_l.
  unfold modulus_ok in Hp. lia.
Qed.

(** A product one of whose factors has only zero coefficients, computed
    on a zero vector, leaves the vector unchanged. *)
Lemma mul_rows_zero (A B : Polynomial) (m ni : nat) :
  (forall i j, coeff A i = 0 \/ coeff B j = 0) ->
  for_range ni (mul_row p A B) (replicate m 0) = replicate m 0.
Proof.
  intros Hz. induction ni as [| i IH]; [reflexivity |].
  rewrite for_range_S, IH. unfold mul_row.
  generalize (length B) as nj. induction nj as [| j IHj]; [reflexivity |].
  rewrite for_range_S, IHj, coeff_replicate.
  assert (Hm : FieldArithmetic.mul (coeff A i) (coeff B j) p = 0).
  { destruct (Hz i j) as [-> | ->]; [apply mul_zero_by | apply mul_by_zero]. }
  rewrite Hm, FieldFacts.add_zero_l by (trivial; unfold modulus_ok in Hp; lia).
  apply insert_replicate.
Qed.

Lemma poly_mul_zeros_r (A : Polynomial) (k : nat) :
  product_fits A (replicate k 0) ->
  poly_mul p A (replicate k 0) = Some (replicate (length A + k - 1) 0).
Proof.
  intros [Hne Hfit]. rewrite length_replicate in *. unfold poly_mul.
  rewrite length_replicate.
  rewrite to_size_t_id by (unfold vector_max_size in Hfit; lia).
  unfold new_vector.
  destruct (Z.leb_spec (Z.of_nat (length A) + Z.of_nat k - 1) vector_max_size); [| lia].
  simpl. f_equal.
  replace (Z.to_nat (Z.of_nat (length A) + Z.of_nat k - 1))
    with (length A + k - 1)%nat by lia.
  apply mul_rows_zero. intros i j. right. apply coeff_replicate.
Qed.

Lemma poly_mul_zero_l (A : Polynomial) :
  product_fits [] A -> poly_mul p [] A = Some (replicate (length A - 1) 0).
Proof.
  intros [Hne Hfit]. change (length (@nil Z)) with 0%nat in *.
  unfold poly_mul. change (length (@nil Z)) with 0%nat.
  rewrite to_size_t_id by (unfold vector_max_size in Hfit; lia).
  unfold new_vector.
  destruct (Z.leb_spec (Z.of_nat 0 + Z.of_nat (length A) - 1) vector_max_size); [| lia].
  replace (Z.to_nat (Z.of_nat 0 + Z.of_nat (length A) - 1)) with (length A - 1)%nat by lia.
  reflexivity.
Qed.

End ZeroFacts.

(** ** Sampling *)

Lemma uniform_int_distribution_range (a b : Z) (gen : Rng) :
  a <= b -> a <= fst (uniform_int_distribution a b gen) <= b.
Proof.
  intros Hab. unfold uniform_int_distribution. simpl.
  pose proof (Z.mod_pos_bound (raw gen (pos gen)) (b - a + 1)). lia.
Qed.

(** Invariant of the filling loop after [count] draws. *)
Lemma fill_upto (a b : Z) (coeffs : list Z) (gen : Rng) (count : nat) :
  a <= b -> (count <= length coeffs)%nat ->
  let s := for_range count
             (fun i '(v, g) =>
                let '(c, g') := uniform_int_distribution a b g in (<[ i := c ]> v, g'))
             (coeffs, gen) in
  length (fst s) = length coeffs /\
  forall k, (k < count)%nat -> a <= coeff (fst s) k <= b.
Proof.
  intros Hab. induction count as [| c IH]; intros Hc; simpl.
  - split; [reflexivity | lia].
  - rewrite for_range_S. destruct IH as [IHl IHc]; [lia |].
    destruct (for_range c _ (coeffs, gen)) as [v g]. simpl in *.
    split; [now rewrite length_insert |].
    intros k Hk. rewrite coeff_insert, IHl.
    destruct (Nat.eqb_spec c k) as [-> | Hne]; simpl.
    + destruct (Nat.ltb_spec k (length coeffs)); [| lia].
      pose proof (Z.mod_pos_bound (raw g (pos g)) (b - a + 1)). lia.
    + apply IHc. lia.
Qed.

Lemma fill_spec (a b : Z) (coeffs : list Z) (gen : Rng) :
  a <= b ->
  length (fst (fill a b coeffs gen)) = length coeffs /\
  Forall (fun c => a <= c <= b) (fst (fill a b coeffs gen)).
Proof.
  intros Hab. destruct (fill_upto a b coeffs gen (length coeffs) Hab) as [Hl Hc]; [lia |].
  unfold fill. split; [exact Hl |].
  apply coeff_Forall. intros k Hk. apply Hc. now rewrite <- Hl.
Qed.

Lemma sized_vector (degree : Z) :
  0 <= degree < INT_MAX ->
  new_vector (to_size_t (wrap_int (degree + 1)))
  = Some (replicate (Z.to_nat (degree + 1)) 0).
Proof.
  unfold INT_MAX. intros Hd.
  rewrite wrap_int_id by (unfold INT_MIN, INT_MAX; lia).
  rewrite to_size_t_id by lia.
  unfold new_vector, vector_max_size.
  destruct (Z.leb_spec (degree + 1) (2 ^ 61 - 1)); [reflexivity | lia].
Qed.

Lemma random_polynomial_spec (degree max_coeff : Z) (gen : Rng) :
  0 <= degree < INT_MAX -> 0 < max_coeff <= INT_MAX ->
  exists poly gen', Proc.random_polynomial degree max_coeff gen = Some (poly, gen') /\
    Z.of_nat (length poly) = degree + 1 /\
    Forall (fun c => 0 <= c < max_coeff) poly.
Proof.
  intros Hd Hm. unfold Proc.random_polynomial. rewrite sized_vector by exact Hd.
  simpl. rewrite wrap_int_id by (unfold INT_MIN, INT_MAX in *; lia).
  destruct (fill_spec 0 (max_coeff - 1) (replicate (Z.to_nat (degree + 1)) 0) gen)
    as [Hl Hf]; [lia |].
  destruct (fill 0 (max_coeff - 1) _ gen) as [poly gen'] eqn:E. simpl in *.
  exists poly, gen'. split; [reflexivity |]. split.
  - rewrite Hl, length_replicate. lia.
  - eapply Forall_impl; [exact Hf |]. simpl. intros c Hc. lia.
Qed.

Lemma generate_spec (degree max_coeff : Z) (gen : Rng) :
  0 <= degree < INT_MAX -> 0 <= max_coeff ->
  exists poly gen', OOP.generate degree max_coeff gen = Some (poly, gen') /\
    Z.of_nat (length poly) = degree + 1 /\
    Forall (fun c => 0 <= c <= max_coeff) poly.
Proof.
  intros Hd Hm. unfold OOP.generate. rewrite sized_vector by exact Hd.
  simpl.
  destruct (fill_spec 0 max_coeff (replicate (Z.to_nat (degree + 1)) 0) gen)
    as [Hl Hf]; [lia |].
  destruct (fill 0 max_coeff _ gen) as [poly gen'] eqn:E. simpl in *.
  exists poly, gen'. split; [reflexivity |]. split.
  - rewrite Hl, length_replicate. lia.
  - exact Hf.
Qed.

Lemma degree_of_length (A : Polynomial) (d : Z) :
  Z.of_nat (length A) = d + 1 -> d < INT_MAX -> degree A = d.
Proof.
  intros Hl Hd. unfold degree. rewrite Hl. replace (d + 1 - 1) with d by ring.
  assert (Hd0 : -1 <= d) by lia. unfold INT_MAX in Hd.
  destruct (Z.eq_dec d (-1)) as [-> | Hne]; [reflexivity |].
  rewrite to_size_t_id by lia. apply wrap_int_id. unfold INT_MIN, INT_MAX. lia.
Qed.

(** ** Decryption *)

Lemma for_range_in_place (f : Z -> Z) (v : list Z) (count : nat) :
  (count <= length v)%nat ->
  let r := for_range count (fun i s => <[ i := f (coeff s i) ]> s) v in
  length r = length v /\
  forall k, coeff r k = if (k <? count)%nat then f (coeff v k) else coeff v k.
Proof.
  induction count as [| c IH]; intros Hc; simpl.
  - split; reflexivity.
  - rewrite for_range_S. destruct IH as [IHl IHc]; [lia |]. split.
    + now rewrite length_insert.
    + intros k. rewrite coeff_insert, IHl, !IHc.
      destruct (Nat.eqb_spec c k) as [-> | Hne]; simpl.
      * destruct (Nat.ltb_spec k (length v)), (Nat.ltb_spec k k), (Nat.ltb_spec k (S k));
          try lia; reflexivity.
      * destruct (Nat.ltb_spec k c), (Nat.ltb_spec k (S c)); try lia; reflexivity.
Qed.

Lemma decrypt_spec (l : Z) (ciphertext ux uy : Polynomial) :
  length (Proc.decrypt l ciphertext ux uy) = length ciphertext /\
  forall i, (i < length ciphertext)%nat ->
    coeff (Proc.decrypt l ciphertext ux uy) i = FieldArithmetic.mod_ (coeff ciphertext i) l.
Proof.
  unfold Proc.decrypt.
  destruct (for_range_in_place (fun c => FieldArithmetic.mod_ c l) ciphertext
              (length ciphertext)) as [Hl Hc]; [lia |].
  split; [exact Hl |]. intros i Hi. rewrite Hc.
  destruct (Nat.ltb_spec i (length ciphertext)); [reflexivity | lia].
Qed.

Lemma fill_cursor (a b : Z) (coeffs : list Z) (gen : Rng) :
  pos (snd (fill a b coeffs gen)) = (pos gen + length coeffs)%nat.
Proof.
  unfold fill. generalize (length coeffs) as count.
  induction count as [| c IH]; [simpl; lia |].
  rewrite for_range_S. destruct (for_range c _ (coeffs, gen)) as [v g].
  simpl in *. lia.
Qed.

(** * The claims *)

(** ** Sampler *)

(** C5 (as amended).  For every degree bound [0 <= degree < INT_MAX], every
    coefficient bound [0 < bound <= INT_MAX] and every state of the
    randomness source, both samplers return a polynomial of length exactly
    [degree + 1]; the coefficients of [random_polynomial] lie in
    [[0, bound)], those of [RandomPolynomialGenerator::generate] lie in
    [[0, bound]], the bound included. *)
Theorem sample_length_and_range (degree bound : Z) (gen : Rng) :
  0 <= degree < INT_MAX -> 0 < bound <= INT_MAX ->
  (exists poly gen',
      Proc.random_polynomial degree bound gen = Some (poly, gen') /\
      Z.of_nat (length poly) = degree + 1 /\
      Forall (fun c => 0 <= c < bound) poly) /\
  (exists poly gen',
      OOP.generate degree bound gen = Some (poly, gen') /\
      Z.of_nat (length poly) = degree + 1 /\
      Forall (fun c => 0 <= c <= bound) poly).
Proof.
  intros Hd Hb. split.
  - now apply random_polynomial_spec.
  - apply generate_spec; [exact Hd | lia].
Qed.

Lemma sample_length_and_range_witness :
  (0 <= 2 < INT_MAX /\ 0 < 4 <= INT_MAX) /\
  (exists poly gen',
      Proc.random_polynomial 2 4 (mkRng (fun k => Z.of_nat k) 0) = Some (poly, gen') /\
      Z.of_nat (length poly) = 2 + 1 /\
      Forall (fun c => 0 <= c < 4) poly) /\
  (exists poly gen',
      OOP.generate 2 4 (mkRng (fun k => Z.of_nat k) 0) = Some (poly, gen') /\
      Z.of_nat (length poly) = 2 + 1 /\
      Forall (fun c => 0 <= c <= 4) poly).
Proof.
  split.
  - unfold INT_MAX. lia.
  - apply (sample_length_and_range 2 4 (mkRng (fun k => Z.of_nat k) 0));
      unfold INT_MAX; lia.
Defined.

(** C5 as stated fails on [RandomPolynomialGenerator::generate]: with a
    source whose outputs are all 4, [generate(2, 4)] returns [[4; 4; 4]],
    whose coefficients are not strictly below the bound 4. *)
Lemma generate_reaches_bound :
  exists poly gen',
    OOP.generate 2 4 (mkRng (fun _ => 4) 0) = Some (poly, gen') /\
    ~ Forall (fun c => 0 <= c < 4) poly.
Proof.
  exists [4; 4; 4], (mkRng (fun _ => 4) 3). split; [reflexivity |].
  intros H. inversion H as [| c t Hc Ht]. lia.
Qed.

(** ** Decryption *)

(** C4 (as amended).  [decrypt] has no length check and never fails: for a
    ciphertext of any length it returns a polynomial of the same length
    whose [i]-th coefficient is [ciphertext[i] mod l]. *)
Theorem decrypt_reduces_mod_l (l : Z) (ciphertext ux uy : Polynomial) :
  modulus_ok l ->
  length (Proc.decrypt l ciphertext ux uy) = length ciphertext /\
  forall i, (i < length ciphertext)%nat ->
    coeff (Proc.decrypt l ciphertext ux uy) i = coeff ciphertext i mod l.
Proof.
  intros Hl. destruct (decrypt_spec l ciphertext ux uy) as [Hlen Hc].
  split; [exact Hlen |]. intros i Hi.
  rewrite Hc by exact Hi. now apply FieldFacts.mod_spec.
Qed.

Lemma decrypt_reduces_mod_l_witness :
  modulus_ok 4 /\
  length (Proc.decrypt 4 [5; -6; 7] [1] [2]) = length [5; -6; 7] /\
  forall i : nat, Z.of_nat i < Z.of_nat (length [5; -6; 7]) ->
    coeff (Proc.decrypt 4 [5; -6; 7] [1] [2]) i = coeff [5; -6; 7] i mod 4.
Proof.
  split.
  - unfold modulus_ok. lia.
  - destruct (decrypt_reduces_mod_l 4 [5; -6; 7] [1] [2]) as [Hlen Hc].
    + unfold modulus_ok. lia.
    + split; [exact Hlen |]. intros i Hi. apply Hc. lia.
Defined.

(** C4 as stated fails: with the preset [param128] ([n = 11], [l = 4]) a
    ciphertext of length 1 is not rejected; [decrypt] returns the
    polynomial [[1]], of length 1. *)
Lemma decrypt_accepts_wrong_length :
  Z.of_nat (length [5]) <> Proc.Params.n Proc.param128 /\
  Proc.decrypt (Proc.Params.l Proc.param128) [5] [] [] = [1].
Proof. split; [discriminate | reflexivity]. Qed.

(** ** Key generation *)

Lemma fill_length (a b : Z) (coeffs : list Z) (gen : Rng) :
  length (fst (fill a b coeffs gen)) = length coeffs.
Proof.
  unfold fill. generalize (length coeffs) at 1 as count.
  induction count as [| c IH]; [reflexivity |].
  rewrite for_range_S. destruct (for_range c _ (coeffs, gen)) as [v g].
  simpl in *. now rewrite length_insert.
Qed.

Lemma random_polynomial_cursor (degree max_coeff : Z) (gen gen' : Rng) (poly : Polynomial) :
  Proc.random_polynomial degree max_coeff gen = Some (poly, gen') ->
  pos gen' = (pos gen + length poly)%nat.
Proof.
  unfold Proc.random_polynomial.
  destruct (new_vector _) as [v |]; simpl; [| discriminate].
  intros [= E]. pose proof (fill_cursor 0 (wrap_int (max_coeff - 1)) v gen) as Hc.
  pose proof (fill_length 0 (wrap_int (max_coeff - 1)) v gen) as Hl.
  rewrite E in Hc, Hl. simpl in *. lia.
Qed.

Lemma keygen_runs (q n l dX : Z) (fuel : nat) (gen : Rng) :
  keygen_params_ok q n l dX -> (1 <= fuel)%nat ->
  exists ux uy X gen',
    Proc.keygen q n l dX fuel gen = Done (ux, uy, X, gen') /\
    (Z.of_nat (length ux) = n /\ Forall (fun c => 0 <= c < l) ux) /\
    (Z.of_nat (length uy) = n /\ Forall (fun c => 0 <= c < l) uy) /\
    (Z.of_nat (length X) = dX + 1 /\ Forall (fun c => 0 <= c < q - 1) X) /\
    Z.of_nat (pos gen') = Z.of_nat (pos gen) + n + n + (dX + 1).
Proof.
  intros (Hn & Hl & HdX & Hq) Hfuel.
  unfold dimension_ok, INT_MAX in *.
  unfold Proc.keygen, Proc.keygen_with.
  rewrite !wrap_int_id by (unfold INT_MIN, INT_MAX; lia).
  destruct (random_polynomial_spec (n - 1) l gen) as (ux & g1 & E1 & Hl1 & Hf1);
    [unfold INT_MAX; lia .. |].
  destruct (random_polynomial_spec (n - 1) l g1) as (uy & g2 & E2 & Hl2 & Hf2);
    [unfold INT_MAX; lia .. |].
  destruct (random_polynomial_spec dX (q - 1) g2) as (X & g3 & E3 & Hl3 & Hf3);
    [unfold INT_MAX; lia .. |].
  rewrite E1, E2. destruct fuel as [| fuel']; [lia |].
  simpl. rewrite wrap_int_id by (unfold INT_MIN, INT_MAX; lia).
  rewrite E3. simpl.
  apply random_polynomial_cursor in E1, E2, E3.
  exists ux, uy, X, g3. repeat split; trivial; lia.
Qed.







Lemma oop_keygen_runs (params : OOP.GiophantusParams) (gen : Rng) :
  0 <= OOP.Params.degree params < INT_MAX ->
  0 <= OOP.Params.noise_bound params ->
  1 <= OOP.Params.modulo params <= INT_MAX ->
  exists key gen',
    OOP.keygen_generate params gen = Some (key, gen') /\
    (Z.of_nat (length (OOP.ux key)) = OOP.Params.degree params + 1 /\
     Forall (fun c => 0 <= c <= OOP.Params.noise_bound params) (OOP.ux key)) /\
    (Z.of_nat (length (OOP.uy key)) = OOP.Params.degree params + 1 /\
     Forall (fun c => 0 <= c <= OOP.Params.noise_bound params) (OOP.uy key)) /\
    (Z.of_nat (length (OOP.X key)) = OOP.Params.degree params + 1 /\
     Forall (fun c => 0 <= c <= OOP.Params.modulo params - 1) (OOP.X key)).
Proof.
  intros Hd Hb Hm. unfold OOP.keygen_generate.
  destruct (generate_spec (OOP.Params.degree params) (OOP.Params.noise_bound params) gen)
    as (ux & g1 & E1 & H1); trivial.
  destruct (generate_spec (OOP.Params.degree params) (OOP.Params.noise_bound params) g1)
    as (uy & g2 & E2 & H2); trivial.
  destruct (generate_spec (OOP.Params.degree params) (OOP.Params.modulo params - 1) g2)
    as (X & g3 & E3 & H3); [trivial | lia |].
  rewrite wrap_int_id by (unfold INT_MIN, INT_MAX in *; lia).
  rewrite E1. simpl. rewrite E2. simpl. rewrite E3. simpl.
  exists (OOP.mkKey ux uy X), g3. simpl. auto.
Qed.

(** C3 (as amended).  Every key returned by the procedural [keygen()] has
    secrets [ux], [uy] of degree exactly [n - 1] with all coefficients in
    [[0, l)].  Every key returned by [GiophantusKeyGen::generate(params)] has
    secrets of degree exactly [params.degree] with all coefficients in
    [[0, params.noise_bound]], the bound included. *)
Theorem keygen_secret_bounds
    (q n l dX : Z) (fuel : nat) (gen : Rng) (params : OOP.GiophantusParams) (gen2 : Rng) :
  keygen_params_ok q n l dX -> (1 <= fuel)%nat ->
  0 <= OOP.Params.degree params < INT_MAX ->
  0 <= OOP.Params.noise_bound params ->
  1 <= OOP.Params.modulo params <= INT_MAX ->
  (exists ux uy X gen',
      Proc.keygen q n l dX fuel gen = Done (ux, uy, X, gen') /\
      degree ux = n - 1 /\ degree uy = n - 1 /\
      Forall (fun c => 0 <= c < l) ux /\ Forall (fun c => 0 <= c < l) uy) /\
  (exists key gen',
      OOP.keygen_generate params gen2 = Some (key, gen') /\
      degree (OOP.ux key) = OOP.Params.degree params /\
      degree (OOP.uy key) = OOP.Params.degree params /\
      Forall (fun c => 0 <= c <= OOP.Params.noise_bound params) (OOP.ux key) /\
      Forall (fun c => 0 <= c <= OOP.Params.noise_bound params) (OOP.uy key)).
Proof.
  intros Hok Hfuel Hd Hb Hm. split.
  - destruct (keygen_runs q n l dX fuel gen Hok Hfuel)
      as (ux & uy & X & gen' & E & [Hlx Hfx] & [Hly Hfy] & _).
    destruct Hok as ([Hn1 Hn2] & _).
    exists ux, uy, X, gen'. repeat split; trivial.
    + apply degree_of_length; lia.
    + apply degree_of_length; lia.
  - destruct (oop_keygen_runs params gen2 Hd Hb Hm)
      as (key & gen' & E & [Hlx Hfx] & [Hly Hfy] & _).
    exists key, gen'. repeat split; trivial.
    + apply degree_of_length; lia.
    + apply degree_of_length; lia.
Qed.

Lemma keygen_secret_bounds_witness :
  (keygen_params_ok 17 11 4 2 /\ (1 <= 1)%nat /\
   0 <= OOP.Params.degree OOP.param192 < INT_MAX /\
   0 <= OOP.Params.noise_bound OOP.param192 /\
   1 <= OOP.Params.modulo OOP.param192 <= INT_MAX) /\
  (exists ux uy X gen',
      Proc.keygen 17 11 4 2 1 (mkRng (fun k => Z.of_nat k) 0) = Done (ux, uy, X, gen') /\
      degree ux = 11 - 1 /\ degree uy = 11 - 1 /\
      Forall (fun c => 0 <= c < 4) ux /\ Forall (fun c => 0 <= c < 4) uy) /\
  (exists key gen',
      OOP.keygen_generate OOP.param192 (mkRng (fun k => Z.of_nat k) 7) = Some (key, gen') /\
      degree (OOP.ux key) = OOP.Params.degree OOP.param192 /\
      degree (OOP.uy key) = OOP.Params.degree OOP.param192 /\
      Forall (fun c => 0 <= c <= OOP.Params.noise_bound OOP.param192) (OOP.ux key) /\
      Forall (fun c => 0 <= c <= OOP.Params.noise_bound OOP.param192) (OOP.uy key)).
Proof.
  assert (Hok : keygen_params_ok 17 11 4 2).
  { unfold keygen_params_ok, dimension_ok, INT_MAX. lia. }
  assert (Hd : 0 <= OOP.Params.degree OOP.param192 < INT_MAX).
  { unfold INT_MAX. simpl. lia. }
  assert (Hb : 0 <= OOP.Params.noise_bound OOP.param192) by (simpl; lia).
  assert (Hm : 1 <= OOP.Params.modulo OOP.param192 <= INT_MAX).
  { unfold INT_MAX. simpl. lia. }
  split; [repeat split; solve [apply Hok | apply Hd | apply Hb | apply Hm | lia] |].
  apply (keygen_secret_bounds 17 11 4 2 1 (mkRng (fun k => Z.of_nat k) 0)
           OOP.param192 (mkRng (fun k => Z.of_nat k) 7) Hok); trivial.
Defined.

(** C3 as stated fails on [GiophantusKeyGen::generate]: the presets of the
    two files carry the same values ([n] = [degree] = 11, [l] =
    [noise_bound] = 4); with a source whose outputs are all 4 the secret
    [ux] of [param128] has twelve coefficients all equal to 4, so its
    degree is 11, not at most 10, and its coefficients are not below 4. *)
Lemma oop_secret_exceeds_bounds :
  exists key gen',
    OOP.keygen_generate OOP.param128 (mkRng (fun _ => 4) 0) = Some (key, gen') /\
    ~ degree (OOP.ux key) <= OOP.Params.degree OOP.param128 - 1 /\
    ~ Forall (fun c => 0 <= c < OOP.Params.noise_bound OOP.param128) (OOP.ux key).
Proof.
  exists (OOP.mkKey (replicate 12 4) (replicate 12 4) (replicate 12 4)),
         (mkRng (fun _ => 4) 36).
  split; [vm_compute; reflexivity |]. split.
  - change (~ 11 <= 11 - 1). lia.
  - intros H. apply Forall_inv in H. simpl in H. lia.
Qed.

(** ** Ring reduction *)

Lemma mod_tn_length (q n : Z) (A : Polynomial) :
  modulus_ok q -> dimension_ok n ->
  exists R, Proc.mod_tn q n A = Some R /\ Z.of_nat (length R) = n.
Proof.
  intros Hq Hn. eexists. split; [apply mod_tn_unfold, Hn |].
  destruct (reduce_loop_inv q Hq (Z.to_nat n) A (length A) (replicate (Z.to_nat n) 0))
    as [Hl _]; [apply in_field_replicate, Hq |].
  rewrite Hl, length_replicate. unfold dimension_ok in Hn. lia.
Qed.

Lemma encrypt_draws (params : Proc.GiophantusParams) (gen : Rng) :
  encrypt_params_ok params ->
  exists r g1 e g2,
    Proc.random_polynomial (Proc.Params.dr params)
      (wrap_int (Proc.Params.q params - 1)) gen = Some (r, g1) /\
    Proc.random_polynomial (wrap_int (Proc.Params.dX params + Proc.Params.dr params))
      (wrap_int (Proc.Params.l params - 1)) g1 = Some (e, g2) /\
    Z.of_nat (length r) = Proc.Params.dr params + 1 /\
    Z.of_nat (length e) = Proc.Params.dX params + Proc.Params.dr params + 1.
Proof.
  intros (Hdr & HdX & Hsum & Hq & Hl). unfold INT_MAX in *.
  rewrite !wrap_int_id by (unfold INT_MIN, INT_MAX; lia).
  destruct (random_polynomial_spec (Proc.Params.dr params) (Proc.Params.q params - 1) gen)
    as (r & g1 & E1 & Hl1 & _); [unfold INT_MAX; lia .. |].
  destruct (random_polynomial_spec (Proc.Params.dX params + Proc.Params.dr params)
              (Proc.Params.l params - 1) g1)
    as (e & g2 & E2 & Hl2 & _); [unfold INT_MAX; lia .. |].
  exists r, g1, e, g2. auto.
Qed.

Lemma encrypt_runs (q n : Z) (message public_key : Polynomial)
    (params : Proc.GiophantusParams) (gen : Rng) :
  modulus_ok q -> dimension_ok n -> encrypt_params_ok params ->
  Z.of_nat (length public_key) <= INT_MAX ->
  exists ciphertext gen',
    Proc.encrypt q n message public_key params gen = Some (ciphertext, gen') /\
    Z.of_nat (length ciphertext) = n.
Proof.
  intros Hq Hn Hok Hpk.
  destruct (encrypt_draws params gen Hok) as (r & g1 & e & g2 & E1 & E2 & Hr & He).
  unfold Proc.encrypt. rewrite E1. simpl. rewrite E2. simpl.
  destruct (poly_mul_some q public_key r) as (product & Ep & _).
  { destruct Hok as (Hdr & _). unfold product_fits, vector_max_size, INT_MAX in *. lia. }
  unfold Proc.op_times. rewrite Ep. simpl.
  destruct (mod_tn_length q n product Hq Hn) as (mask & Em & _). rewrite Em. simpl.
  destruct (mod_tn_length q n
              (Proc.op_plus q (Proc.op_plus q message mask) e) Hq Hn) as (c & Ec & Hc).
  rewrite Ec. simpl. exists c, g2. auto.
Qed.

(** C7.  For every polynomial [C], of any length, [mod_tn] returns a
    polynomial of length exactly [n]; for [A], [B] of length [n] the
    reductions of [A + B] and of [A * B] have length [n]; and the
    ciphertext returned by [encrypt] has length [n]. *)
Theorem reduce_ring_length
    (q n : Z) (A B C message public_key : Polynomial)
    (params : Proc.GiophantusParams) (gen : Rng) :
  modulus_ok q -> dimension_ok n ->
  Z.of_nat (length A) = n -> Z.of_nat (length B) = n ->
  encrypt_params_ok params -> Z.of_nat (length public_key) <= INT_MAX ->
  (exists R, Proc.mod_tn q n C = Some R /\ Z.of_nat (length R) = n) /\
  (exists R, Proc.mod_tn q n (Proc.op_plus q A B) = Some R /\ Z.of_nat (length R) = n) /\
  (exists product R,
      Proc.op_times q A B = Some product /\
      Proc.mod_tn q n product = Some R /\ Z.of_nat (length R) = n) /\
  (exists ciphertext gen',
      Proc.encrypt q n message public_key params gen = Some (ciphertext, gen') /\
      Z.of_nat (length ciphertext) = n).
Proof.
  intros Hq Hn HA HB Hok Hpk. repeat split.
  - now apply mod_tn_length.
  - now apply mod_tn_length.
  - destruct (poly_mul_some q A B) as (product & Ep & _).
    { unfold dimension_ok, INT_MAX in Hn. unfold product_fits, vector_max_size. lia. }
    destruct (mod_tn_length q n product Hq Hn) as (R & ER & HR).
    exists product, R. auto.
  - now apply encrypt_runs.
Qed.

Lemma reduce_ring_length_witness :
  (modulus_ok 17 /\ dimension_ok 3 /\
   Z.of_nat (length [1; 2; 3]) = 3 /\ Z.of_nat (length [4; 5; 6]) = 3 /\
   encrypt_params_ok Proc.param128 /\ Z.of_nat (length [6; 7; 8]) <= INT_MAX) /\
  (exists R, Proc.mod_tn 17 3 [] = Some R /\ Z.of_nat (length R) = 3) /\
  (exists R, Proc.mod_tn 17 3 (Proc.op_plus 17 [1; 2; 3] [4; 5; 6]) = Some R /\
             Z.of_nat (length R) = 3) /\
  (exists product R,
      Proc.op_times 17 [1; 2; 3] [4; 5; 6] = Some product /\
      Proc.mod_tn 17 3 product = Some R /\ Z.of_nat (length R) = 3) /\
  (exists ciphertext gen',
      Proc.encrypt 17 3 [1; 0; 3] [6; 7; 8] Proc.param128 (mkRng (fun k => Z.of_nat k) 0)
      = Some (ciphertext, gen') /\
      Z.of_nat (length ciphertext) = 3).
Proof.
  assert (Hq : modulus_ok 17) by (unfold modulus_ok; lia).
  assert (Hn : dimension_ok 3) by (unfold dimension_ok, INT_MAX; lia).
  assert (Hok : encrypt_params_ok Proc.param128).
  { unfold encrypt_params_ok, INT_MAX. simpl. lia. }
  assert (Hpk : Z.of_nat (length [6; 7; 8]) <= INT_MAX) by (unfold INT_MAX; simpl; lia).
  split; [repeat split; solve [apply Hq | apply Hn | apply Hok | apply Hpk | reflexivity] |].
  apply (reduce_ring_length 17 3 [1; 2; 3] [4; 5; 6] [] [1; 0; 3] [6; 7; 8]
           Proc.param128 (mkRng (fun k => Z.of_nat k) 0) Hq Hn eq_refl eq_refl Hok Hpk).
Defined.

(** C8.  Ring reduction is idempotent: reducing the result of [mod_tn]
    again returns it unchanged; and an element that is already reduced
    (length [n], coefficients in [[0, q)]) is returned unchanged. *)
Theorem reduce_ring_idempotent (q n : Z) (A R : Polynomial) :
  modulus_ok q -> dimension_ok n ->
  Z.of_nat (length R) = n -> in_field q R ->
  (exists A', Proc.mod_tn q n A = Some A' /\ Proc.mod_tn q n A' = Some A') /\
  Proc.mod_tn q n R = Some R.
Proof.
  intros Hq Hn HlR HfR. split.
  - destruct (mod_tn_length q n A Hq Hn) as (A' & E & _).
    exists A'. split; [exact E |].
    destruct (mod_tn_result q n Hq Hn A A' E) as [Hl Hf].
    now apply mod_tn_reduced.
  - apply mod_tn_reduced; trivial. lia.
Qed.

Lemma reduce_ring_idempotent_witness :
  (modulus_ok 17 /\ dimension_ok 3 /\
   Z.of_nat (length [12; 7; 9]) = 3 /\ in_field 17 [12; 7; 9]) /\
  (exists A', Proc.mod_tn 17 3 [1; 2; 3; 4; 5; 6; 7] = Some A' /\
              Proc.mod_tn 17 3 A' = Some A') /\
  Proc.mod_tn 17 3 [12; 7; 9] = Some [12; 7; 9].
Proof.
  assert (Hq : modulus_ok 17) by (unfold modulus_ok; lia).
  assert (Hn : dimension_ok 3) by (unfold dimension_ok, INT_MAX; lia).
  assert (Hf : in_field 17 [12; 7; 9]).
  { unfold in_field. repeat constructor; lia. }
  split; [repeat split; solve [apply Hq | apply Hn | apply Hf | reflexivity] |].
  apply (reduce_ring_idempotent 17 3 [1; 2; 3; 4; 5; 6; 7] [12; 7; 9] Hq Hn eq_refl Hf).
Defined.

(** ** Multiplication and addition *)

(** C9 (as amended).  For polynomials [A], [B] that are not both empty,
    whose product fits a vector and whose coefficients are small enough for
    the [int] products, [operator*] of both variants returns a polynomial of
    length [len A + len B - 1] whose coefficient [k] is the sum over all
    index pairs [i + j = k] of [A[i] * B[j]], reduced modulo the modulus
    ([q], respectively [MODULO]). *)
Theorem multiply_is_convolution (q : Z) (A B : Polynomial) :
  modulus_ok q -> Forall small A -> Forall small B -> product_fits A B ->
  (exists R, Proc.op_times q A B = Some R /\
             Z.of_nat (length R) = Z.of_nat (length A) + Z.of_nat (length B) - 1 /\
             forall k, coeff R k = convolution A B k mod q) /\
  (exists R, OOP.op_times A B = Some R /\
             Z.of_nat (length R) = Z.of_nat (length A) + Z.of_nat (length B) - 1 /\
             forall k, coeff R k = convolution A B k mod OOP.MODULO).
Proof.
  intros Hq HA HB Hfit. split.
  - destruct (poly_mul_convolution q Hq A B HA HB Hfit) as (R & E & Hl & _ & Hc).
    exists R. repeat split; trivial. destruct Hfit as [Hne _]. lia.
  - assert (H17 : modulus_ok OOP.MODULO) by (unfold modulus_ok, OOP.MODULO; lia).
    destruct (poly_mul_convolution OOP.MODULO H17 A B HA HB Hfit) as (R & E & Hl & _ & Hc).
    exists R. repeat split; trivial. destruct Hfit as [Hne _]. lia.
Qed.

Lemma multiply_is_convolution_witness :
  (modulus_ok 23 /\ Forall small [1; 2; 3] /\ Forall small [4; 5] /\
   product_fits [1; 2; 3] [4; 5]) /\
  (exists R, Proc.op_times 23 [1; 2; 3] [4; 5] = Some R /\
             Z.of_nat (length R) = Z.of_nat (length [1; 2; 3]) + Z.of_nat (length [4; 5]) - 1 /\
             forall k, coeff R k = convolution [1; 2; 3] [4; 5] k mod 23) /\
  (exists R, OOP.op_times [1; 2; 3] [4; 5] = Some R /\
             Z.of_nat (length R) = Z.of_nat (length [1; 2; 3]) + Z.of_nat (length [4; 5]) - 1 /\
             forall k, coeff R k = convolution [1; 2; 3] [4; 5] k mod OOP.MODULO).
Proof.
  assert (Hq : modulus_ok 23) by (unfold modulus_ok; lia).
  assert (HA : Forall small [1; 2; 3]) by (repeat constructor; unfold small; lia).
  assert (HB : Forall small [4; 5]) by (repeat constructor; unfold small; lia).
  assert (Hfit : product_fits [1; 2; 3] [4; 5]).
  { unfold product_fits, vector_max_size. simpl. lia. }
  split; [auto |].
  apply (multiply_is_convolution 23 [1; 2; 3] [4; 5] Hq HA HB Hfit).
Defined.

(** C9 as stated fails for two empty polynomials: the size
    [0 + 0 - 1] wraps to the largest [size_t], the vector cannot be
    allocated, and neither variant of [operator*] returns a polynomial. *)
Lemma multiply_empty_operands_no_result :
  ~ (exists R, Proc.op_times 17 [] [] = Some R) /\
  ~ (exists R, OOP.op_times [] [] = Some R).
Proof. split; intros [R H]; discriminate H. Qed.

(** C6 (as amended).  The operators of [main.cpp] reduce modulo the
    constant [MODULO], which is 17, and never modulo the modulus of a
    parameter set.  For operands whose coefficient sums [A[i] + B[i]] stay
    in [int], coefficient [i] of [A + B] is [(A[i] + B[i]) mod 17]; for
    operands that are not both empty and whose coefficients have magnitude
    at most 46340, coefficient [k] of [A * B] is the convolution sum modulo
    17.  Polynomials over the field of a parameter set of modulus at most
    46341, such as 23 or 29, satisfy both conditions. *)
Theorem oop_operators_reduce_modulo_17 (params : OOP.GiophantusParams) (A B : Polynomial) :
  OOP.MODULO = 17 /\
  ((forall i, INT_MIN <= coeff A i + coeff B i <= INT_MAX) ->
   length (OOP.op_plus A B) = Nat.max (length A) (length B) /\
   forall i, coeff (OOP.op_plus A B) i = (coeff A i + coeff B i) mod 17) /\
  (Forall small A -> Forall small B -> product_fits A B ->
   exists R, OOP.op_times A B = Some R /\
             forall k, coeff R k = convolution A B k mod 17) /\
  (0 < OOP.Params.modulo params <= 46341 ->
   in_field (OOP.Params.modulo params) A -> in_field (OOP.Params.modulo params) B ->
   Forall small A /\ Forall small B /\
   forall i, INT_MIN <= coeff A i + coeff B i <= INT_MAX).
Proof.
  assert (H17 : modulus_ok 17) by (unfold modulus_ok; lia).
  split; [reflexivity |]. split; [| split].
  - intros Hsum. split; [apply poly_add_length |].
    intros i. unfold OOP.op_plus, OOP.MODULO.
    destruct (Nat.lt_ge_cases i (Nat.max (length A) (length B))) as [Hlt | Hge].
    + rewrite poly_add_coeff by exact Hlt.
      apply FieldFacts.add_spec; [exact H17 | apply Hsum].
    + rewrite !coeff_beyond by (rewrite ?poly_add_length; lia). reflexivity.
  - intros HA HB Hfit.
    destruct (poly_mul_convolution 17 H17 A B HA HB Hfit) as (R & E & _ & _ & Hc).
    exists R. split; [exact E | exact Hc].
  - intros Hm HA HB.
    assert (Hsmall : forall V, in_field (OOP.Params.modulo params) V -> Forall small V).
    { intros V HV. eapply Forall_impl; [exact HV |]. simpl. unfold small. lia. }
    split; [now apply Hsmall |]. split; [now apply Hsmall |].
    intros i. assert (Hz : small 0) by (unfold small; lia).
    pose proof (Forall_coeff small A Hz (Hsmall A HA) i) as Ha.
    pose proof (Forall_coeff small B Hz (Hsmall B HB) i) as Hb.
    unfold small, INT_MIN, INT_MAX in *. lia.
Qed.

Lemma oop_operators_reduce_modulo_17_witness :
  OOP.MODULO = 17 /\
  (length (OOP.op_plus [20; -22] [5; 21; 1073741824])
   = Nat.max (length [20; -22]) (length [5; 21; 1073741824]) /\
   forall i, coeff (OOP.op_plus [20; -22] [5; 21; 1073741824]) i
             = (coeff [20; -22] i + coeff [5; 21; 1073741824] i) mod 17) /\
  (exists R, OOP.op_times [20; -22] [5; 21; 19] = Some R /\
             forall k, coeff R k = convolution [20; -22] [5; 21; 19] k mod 17) /\
  (Forall small [20; 22] /\ Forall small [5; 21; 19] /\
   forall i, INT_MIN <= coeff [20; 22] i + coeff [5; 21; 19] i <= INT_MAX).
Proof.
  destruct (oop_operators_reduce_modulo_17 OOP.param192 [20; -22] [5; 21; 1073741824])
    as (H17 & Hadd & _ & _).
  destruct (oop_operators_reduce_modulo_17 OOP.param192 [20; -22] [5; 21; 19])
    as (_ & _ & Hmul & _).
  destruct (oop_operators_reduce_modulo_17 OOP.param192 [20; 22] [5; 21; 19])
    as (_ & _ & _ & Hfield).
  split; [exact H17 |]. split; [| split].
  - apply Hadd. intros i. unfold INT_MIN, INT_MAX, coeff.
    destruct i as [| [| [| i]]]; simpl; try lia. destruct i; simpl; lia.
  - apply Hmul.
    + repeat constructor; unfold small; lia.
    + repeat constructor; unfold small; lia.
    + unfold product_fits, vector_max_size. simpl. lia.
  - apply Hfield.
    + simpl. lia.
    + unfold in_field. simpl. repeat constructor; lia.
    + unfold in_field. simpl. repeat constructor; lia.
Defined.

(** C6 as stated fails outside that domain.  The sum of the coefficients
    2147483647 and 1 leaves [int]: with two's complement wrap-around the
    coefficient of the sum is 8, where [(2147483647 + 1) mod 17] is 9.  And
    two empty polynomials have no product. *)
Lemma oop_operators_outside_int :
  coeff (OOP.op_plus [2147483647] [1]) 0
  <> (coeff [2147483647] 0 + coeff [1] 0) mod 17 /\
  coeff (OOP.op_plus [2147483647] [1]) 0 = 8 /\
  OOP.op_times [] [] = None.
Proof. split; [| split]; [vm_compute; discriminate | reflexivity | reflexivity]. Qed.

(** The parameter set [param192] has modulus 23, yet the sum of [[20]] and
    [[5]] is [[8]], that is 25 modulo 17, and not [[2]]. *)
Example oop_sum_ignores_parameter_modulus :
  OOP.op_plus [20] [5] = [8] /\ (20 + 5) mod OOP.Params.modulo OOP.param192 = 2.
Proof. split; reflexivity. Qed.

(** ** The zero polynomial *)

Lemma zero_plus (q : Z) (A : Polynomial) :
  modulus_ok q -> in_field q A -> Proc.op_plus q [] A = A.
Proof.
  intros Hq HA. unfold Proc.op_plus.
  change (poly_add q (replicate 0 0) A = A).
  rewrite (poly_add_zeros_l q Hq A 0 HA). simpl. apply app_nil_r.
Qed.

Lemma zero_times_nonempty (q : Z) (A : Polynomial) :
  modulus_ok q -> product_fits [] A ->
  exists R, Proc.op_times q [] A = Some R /\ trim R = [].
Proof.
  intros Hq Hfit. exists (replicate (length A - 1) 0). split.
  - now apply poly_mul_zero_l.
  - apply trim_zeros.
Qed.

(** C10.  The degree of the empty polynomial is the sentinel [-1].  The
    product of the empty polynomial with itself is not the empty
    polynomial: [operator*] asks for a vector of [0 + 0 - 1] coefficients
    and returns nothing, whatever the modulus. *)
Theorem zero_times_zero_has_no_result :
  degree [] = -1 /\
  trim [] = [] /\
  forall q : Z, Proc.op_times q [] [] = None.
Proof. repeat split. Qed.

(** ** Round trip *)

Lemma all_zero_replicate (v : list Z) :
  Forall (fun c => c = 0) v -> v = replicate (length v) 0.
Proof.
  induction 1 as [| c v Hc _ IH]; [reflexivity |].
  simpl. now rewrite Hc, <- IH.
Qed.

Lemma in_field_app_zeros (p : Z) (A : list Z) (k : nat) :
  modulus_ok p -> in_field p A -> in_field p (A ++ replicate k 0).
Proof.
  intros Hp HA. unfold in_field. rewrite Forall_app. split; [exact HA |].
  now apply in_field_replicate.
Qed.

Lemma in_field_weaken (l q : Z) (A : list Z) :
  l <= q -> in_field l A -> in_field q A.
Proof.
  intros Hlq HA. eapply Forall_impl; [exact HA |]. simpl. intros c Hc. lia.
Qed.

Lemma mod_tn_zeros (q n : Z) (k : nat) :
  modulus_ok q -> dimension_ok n ->
  Proc.mod_tn q n (replicate k 0) = Some (replicate (Z.to_nat n) 0).
Proof.
  intros Hq Hn. change (replicate k 0) with ([] ++ replicate k 0).
  rewrite (mod_tn_app_zeros q n Hq Hn [] k). now rewrite mod_tn_unfold.
Qed.

Lemma decrypt_reduced (l : Z) (c ux uy : Polynomial) :
  modulus_ok l -> in_field l c -> Proc.decrypt l c ux uy = c.
Proof.
  intros Hl Hc. destruct (decrypt_spec l c ux uy) as [Hlen Hco].
  apply coeff_ext; [exact Hlen |].
  intros k Hk. rewrite Hlen in Hk. rewrite Hco by exact Hk.
  apply FieldFacts.mod_fixed; [exact Hl | now apply in_field_coeff].
Qed.

(** A case in which the round trip holds: when the randomness [r] and the
    noise [e] drawn by [encrypt] are zero polynomials, decryption inverts
    encryption after trimming, for every message of length at most
    [mlen <= n] with coefficients in [[0, l)], and for every public and
    secret key. *)
Theorem round_trip_without_noise
    (q n l : Z) (message public_key ux uy : Polynomial)
    (params : Proc.GiophantusParams) (gen g1 g2 : Rng) (r e : Polynomial) :
  modulus_ok q -> dimension_ok n -> 0 < l <= q ->
  encrypt_params_ok params -> Proc.Params.mlen params <= n ->
  Z.of_nat (length message) <= Proc.Params.mlen params -> in_field l message ->
  Z.of_nat (length public_key) <= INT_MAX ->
  Proc.random_polynomial (Proc.Params.dr params)
    (wrap_int (Proc.Params.q params - 1)) gen = Some (r, g1) ->
  Proc.random_polynomial (wrap_int (Proc.Params.dX params + Proc.Params.dr params))
    (wrap_int (Proc.Params.l params - 1)) g1 = Some (e, g2) ->
  Forall (fun c => c = 0) r -> Forall (fun c => c = 0) e ->
  exists ciphertext,
    Proc.encrypt q n message public_key params gen = Some (ciphertext, g2) /\
    trim (Proc.decrypt l ciphertext ux uy) = trim message.
Proof.
  intros Hq Hn Hl Hok Hmlen Hm Hfm Hpk E1 E2 Hr He.
  assert (Hl' : modulus_ok l) by (unfold modulus_ok in *; lia).
  assert (Hfq : in_field q message) by (apply (in_field_weaken l q); [lia | exact Hfm]).
  destruct (encrypt_draws params gen Hok) as (r' & g1' & e' & g2' & E1' & E2' & Hlr & _).
  rewrite E1 in E1'. injection E1' as <- <-. clear E2'.
  apply all_zero_replicate in Hr, He.
  set (N := Z.to_nat n).
  set (padded := message ++ replicate (N - length message) 0).
  assert (HN : length padded = N).
  { unfold padded. rewrite length_app, length_replicate.
    unfold dimension_ok in Hn. lia. }
  assert (Hpad : in_field q padded) by now apply in_field_app_zeros.
  exists padded. split.
  - unfold Proc.encrypt. rewrite E1. simpl. rewrite E2. simpl.
    unfold Proc.op_times. rewrite Hr, poly_mul_zeros_r; [| exact Hq |].
    + simpl. rewrite mod_tn_zeros by assumption. simpl.
      unfold Proc.op_plus. fold N. rewrite (poly_add_zeros_r q Hq message N Hfq).
      fold padded. rewrite He, (poly_add_zeros_r q Hq padded _ Hpad).
      rewrite (mod_tn_app_zeros q n Hq Hn).
      rewrite (mod_tn_reduced q n Hq Hn padded HN Hpad). reflexivity.
    + destruct Hok as (Hdr & _). unfold product_fits. rewrite length_replicate.
      unfold vector_max_size, INT_MAX in *. lia.
  - rewrite decrypt_reduced; [apply trim_app_zeros | exact Hl' |].
    now apply in_field_app_zeros.
Qed.

Lemma round_trip_without_noise_witness :
  (modulus_ok 17 /\ dimension_ok 11 /\ 0 < 4 <= 17 /\
   encrypt_params_ok param_small /\ Proc.Params.mlen param_small <= 11 /\
   Z.of_nat (length [1; 0; 3]) <= Proc.Params.mlen param_small /\
   in_field 4 [1; 0; 3] /\
   Z.of_nat (length [6; 7; 8]) <= INT_MAX /\
   Proc.random_polynomial (Proc.Params.dr param_small)
     (wrap_int (Proc.Params.q param_small - 1)) (mkRng (fun _ => 0) 0)
   = Some ([0; 0; 0], mkRng (fun _ => 0) 3) /\
   Proc.random_polynomial (wrap_int (Proc.Params.dX param_small + Proc.Params.dr param_small))
     (wrap_int (Proc.Params.l param_small - 1)) (mkRng (fun _ => 0) 3)
   = Some ([0; 0; 0; 0; 0], mkRng (fun _ => 0) 8) /\
   Forall (fun c => c = 0) [0; 0; 0] /\ Forall (fun c => c = 0) [0; 0; 0; 0; 0]) /\
  exists ciphertext,
    Proc.encrypt 17 11 [1; 0; 3] [6; 7; 8] param_small (mkRng (fun _ => 0) 0)
    = Some (ciphertext, mkRng (fun _ => 0) 8) /\
    trim (Proc.decrypt 4 ciphertext [0; 1; 2] [3; 0; 1]) = trim [1; 0; 3].
Proof.
  assert (Hq : modulus_ok 17) by (unfold modulus_ok; lia).
  assert (Hn : dimension_ok 11) by (unfold dimension_ok, INT_MAX; lia).
  assert (Hl : 0 < 4 <= 17) by lia.
  assert (Hok : encrypt_params_ok param_small).
  { unfold encrypt_params_ok, INT_MAX. simpl. lia. }
  assert (Hmlen : Proc.Params.mlen param_small <= 11) by (simpl; lia).
  assert (Hm : Z.of_nat (length [1; 0; 3]) <= Proc.Params.mlen param_small) by (simpl; lia).
  assert (Hfm : in_field 4 [1; 0; 3]) by (unfold in_field; repeat constructor; lia).
  assert (Hpk : Z.of_nat (length [6; 7; 8]) <= INT_MAX) by (unfold INT_MAX; simpl; lia).
  assert (Hr : Forall (fun c => c = 0) [0; 0; 0]) by (repeat constructor).
  assert (He : Forall (fun c => c = 0) [0; 0; 0; 0; 0]) by (repeat constructor).
  split.
  - repeat split; solve [apply Hq | apply Hn | apply Hok | apply Hfm | apply Hr | apply He
                         | simpl; lia | unfold INT_MAX; simpl; lia | reflexivity].
  - apply (round_trip_without_noise 17 11 4 [1; 0; 3] [6; 7; 8] [0; 1; 2] [3; 0; 1]
             param_small (mkRng (fun _ => 0) 0) (mkRng (fun _ => 0) 3) (mkRng (fun _ => 0) 8)
             [0; 0; 0] [0; 0; 0; 0; 0]
             Hq Hn Hl Hok Hmlen Hm Hfm Hpk eq_refl eq_refl Hr He).
Defined.

Lemma prime_17 : Znumtheory.prime 17.
Proof.
  apply Znumtheory.prime_intro; [lia |].
  intros k Hk. constructor; try apply Z.divide_1_l.
  intros x Hxk Hx17. pose proof (Z.gcd_greatest k 17 x Hxk Hx17) as Hg.
  assert (Hcases : k = 1 \/ k = 2 \/ k = 3 \/ k = 4 \/ k = 5 \/ k = 6 \/ k = 7 \/ k = 8 \/
                   k = 9 \/ k = 10 \/ k = 11 \/ k = 12 \/ k = 13 \/ k = 14 \/ k = 15 \/
                   k = 16) by lia.
  repeat (destruct Hcases as [-> | Hcases]; [exact Hg |]).
  subst k. exact Hg.
Qed.

(** C1 as stated fails.  [param_small] satisfies the invariants of the data
    model and [[1; 0; 3]] is a message for it; with the source whose
    [k]-th output is [k], [keygen] returns a key, [encrypt] draws
    [r = [9; 10; 11]] and [e = [1; 2; 0; 1; 2]] and returns
    [[5; 6; 7; 5; 5; 0; 0; 0; 0; 0; 0]], and [decrypt] returns a polynomial
    that trims to [[1; 2; 3; 1; 1]], not to the message. *)
Lemma noise_breaks_round_trip :
  data_model_invariants param_small /\
  Z.of_nat (length [1; 0; 3]) <= Proc.Params.mlen param_small /\
  in_field (Proc.Params.l param_small) [1; 0; 3] /\
  exists ux uy X g1 ciphertext g2,
    Proc.keygen 17 11 4 2 1 (mkRng (fun k => Z.of_nat k) 0) = Done (ux, uy, X, g1) /\
    Proc.encrypt 17 11 [1; 0; 3] X param_small g1 = Some (ciphertext, g2) /\
    trim (Proc.decrypt 4 ciphertext ux uy) = [1; 2; 3; 1; 1] /\
    trim (Proc.decrypt 4 ciphertext ux uy) <> trim [1; 0; 3].
Proof.
  split; [| split; [| split]].
  - unfold data_model_invariants. simpl.
    split; [exact prime_17 | lia].
  - simpl. lia.
  - unfold in_field. simpl. repeat constructor; lia.
  - exists [0; 1; 2; 3; 0; 1; 2; 3; 0; 1; 2], [3; 0; 1; 2; 3; 0; 1; 2; 3; 0; 1],
           [6; 7; 8], (mkRng (fun k => Z.of_nat k) 25),
           [5; 6; 7; 5; 5; 0; 0; 0; 0; 0; 0], (mkRng (fun k => Z.of_nat k) 33).
    split; [vm_compute; reflexivity |]. split; [vm_compute; reflexivity |].
    split; [vm_compute; reflexivity |]. vm_compute. discriminate.
Qed.

(** * Further properties of the code *)

(** ** Field arithmetic *)

Lemma product_modulus_is_modulus (p : Z) : product_modulus_ok p -> modulus_ok p.
Proof. unfold product_modulus_ok, modulus_ok. lia. Qed.

Lemma sub_spec (a b p : Z) :
  modulus_ok p -> INT_MIN <= a - b <= INT_MAX ->
  FieldArithmetic.sub a b p = (a - b) mod p.
Proof.
  intros Hp Hab. unfold FieldArithmetic.sub.
  now rewrite wrap_int_id, FieldFacts.mod_spec.
Qed.

(** X1.  [mod] is the mathematical modulo, not the truncating remainder:
    for every integer [a], negative or not, the result is [a mod p] and
    lies in [[0, p)]; the results of [add], [mul] and [sub] lie in
    [[0, p)] as well, whatever their operands (with two's complement
    wrap-around where their sum, product or difference leaves [int]). *)
Theorem field_results_are_normalised (a b p : Z) :
  modulus_ok p ->
  FieldArithmetic.mod_ a p = a mod p /\
  0 <= FieldArithmetic.mod_ a p < p /\
  0 <= FieldArithmetic.add a b p < p /\
  0 <= FieldArithmetic.mul a b p < p /\
  0 <= FieldArithmetic.sub a b p < p.
Proof.
  intros Hp. split; [now apply FieldFacts.mod_spec |].
  repeat split; apply FieldFacts.mod_range, Hp.
Qed.

Lemma field_results_are_normalised_witness :
  modulus_ok 17 /\
  FieldArithmetic.mod_ (-40) 17 = (-40) mod 17 /\
  0 <= FieldArithmetic.mod_ (-40) 17 < 17 /\
  0 <= FieldArithmetic.add (-40) 2147483647 17 < 17 /\
  0 <= FieldArithmetic.mul (-40) 2147483647 17 < 17 /\
  0 <= FieldArithmetic.sub (-40) 2147483647 17 < 17.
Proof.
  assert (Hp : modulus_ok 17) by (unfold modulus_ok; lia).
  split; [exact Hp |].
  apply (field_results_are_normalised (-40) 2147483647 17 Hp).
Defined.

(** X2.  On field elements [sub] undoes [add] and [add] undoes [sub]. *)
Theorem field_sub_inverts_add (a b p : Z) :
  modulus_ok p -> 0 <= a < p -> 0 <= b < p ->
  FieldArithmetic.sub (FieldArithmetic.add a b p) b p = a /\
  FieldArithmetic.add (FieldArithmetic.sub a b p) b p = a.
Proof.
  intros Hp Ha Hb.
  pose proof (FieldFacts.add_range a b p Hp) as Hab.
  pose proof (FieldFacts.mod_range (wrap_int (a - b)) p Hp) as Hsb.
  fold (FieldArithmetic.sub a b p) in Hsb.
  unfold modulus_ok in Hp. split.
  - rewrite sub_spec by (unfold modulus_ok, INT_MIN, INT_MAX; lia).
    rewrite FieldFacts.add_spec by (unfold modulus_ok, INT_MIN, INT_MAX; lia).
    rewrite Zminus_mod_idemp_l. replace (a + b - b) with a by ring.
    apply Z.mod_small. lia.
  - rewrite FieldFacts.add_spec by (unfold modulus_ok, INT_MIN, INT_MAX; lia).
    rewrite sub_spec by (unfold modulus_ok, INT_MIN, INT_MAX; lia).
    rewrite Zplus_mod_idemp_l. replace (a - b + b) with a by ring.
    apply Z.mod_small. lia.
Qed.

Lemma field_sub_inverts_add_witness :
  (modulus_ok 17 /\ 0 <= 5 < 17 /\ 0 <= 16 < 17) /\
  FieldArithmetic.sub (FieldArithmetic.add 5 16 17) 16 17 = 5 /\
  FieldArithmetic.add (FieldArithmetic.sub 5 16 17) 16 17 = 5.
Proof.
  assert (Hp : modulus_ok 17) by (unfold modulus_ok; lia).
  split; [split; [exact Hp | lia] |].
  apply (field_sub_inverts_add 5 16 17 Hp); lia.
Defined.

(** X3.  On field elements of a modulus of at most 46341 (so that no
    product overflows) [add] and [mul] are commutative and associative and
    [mul] distributes over [add]. *)
Theorem field_ring_laws (a b c p : Z) :
  product_modulus_ok p -> 0 <= a < p -> 0 <= b < p -> 0 <= c < p ->
  FieldArithmetic.add a b p = FieldArithmetic.add b a p /\
  FieldArithmetic.mul a b p = FieldArithmetic.mul b a p /\
  FieldArithmetic.add (FieldArithmetic.add a b p) c p
    = FieldArithmetic.add a (FieldArithmetic.add b c p) p /\
  FieldArithmetic.mul (FieldArithmetic.mul a b p) c p
    = FieldArithmetic.mul a (FieldArithmetic.mul b c p) p /\
  FieldArithmetic.mul a (FieldArithmetic.add b c p) p
    = FieldArithmetic.add (FieldArithmetic.mul a b p) (FieldArithmetic.mul a c p) p.
Proof.
  intros Hpm Ha Hb Hc.
  pose proof (product_modulus_is_modulus p Hpm) as Hp.
  unfold product_modulus_ok in Hpm.
  assert (Hprod : forall x y, 0 <= x < p -> 0 <= y < p -> INT_MIN <= x * y <= INT_MAX).
  { intros x y Hx Hy. unfold INT_MIN, INT_MAX. nia. }
  assert (Hsum : forall x y, 0 <= x < p -> 0 <= y < p -> INT_MIN <= x + y <= INT_MAX).
  { intros x y Hx Hy. unfold INT_MIN, INT_MAX. lia. }
  pose proof (FieldFacts.add_range a b p Hp) as Rab.
  pose proof (FieldFacts.add_range b c p Hp) as Rbc.
  pose proof (FieldFacts.mul_range a b p Hp) as Mab.
  pose proof (FieldFacts.mul_range b c p Hp) as Mbc.
  pose proof (FieldFacts.mul_range a c p Hp) as Mac.
  repeat split.
  - unfold FieldArithmetic.add. now rewrite Z.add_comm.
  - unfold FieldArithmetic.mul. now rewrite Z.mul_comm.
  - rewrite (FieldFacts.add_spec _ c), (FieldFacts.add_spec a _) by auto.
    rewrite !FieldFacts.add_spec by auto.
    rewrite Zplus_mod_idemp_l, Zplus_mod_idemp_r. f_equal. ring.
  - rewrite (FieldFacts.mul_spec _ c), (FieldFacts.mul_spec a _) by auto.
    rewrite !FieldFacts.mul_spec by auto.
    rewrite Zmult_mod_idemp_l, Zmult_mod_idemp_r. f_equal. ring.
  - rewrite (FieldFacts.mul_spec a _), (FieldFacts.add_spec (FieldArithmetic.mul a b p) _)
      by auto.
    rewrite FieldFacts.add_spec, !FieldFacts.mul_spec by auto.
    rewrite Zmult_mod_idemp_r, <- Zplus_mod. f_equal. ring.
Qed.

Lemma field_ring_laws_witness :
  (product_modulus_ok 29 /\ 0 <= 28 < 29 /\ 0 <= 27 < 29 /\ 0 <= 13 < 29) /\
  FieldArithmetic.add 28 27 29 = FieldArithmetic.add 27 28 29 /\
  FieldArithmetic.mul 28 27 29 = FieldArithmetic.mul 27 28 29 /\
  FieldArithmetic.add (FieldArithmetic.add 28 27 29) 13 29
    = FieldArithmetic.add 28 (FieldArithmetic.add 27 13 29) 29 /\
  FieldArithmetic.mul (FieldArithmetic.mul 28 27 29) 13 29
    = FieldArithmetic.mul 28 (FieldArithmetic.mul 27 13 29) 29 /\
  FieldArithmetic.mul 28 (FieldArithmetic.add 27 13 29) 29
    = FieldArithmetic.add (FieldArithmetic.mul 28 27 29) (FieldArithmetic.mul 28 13 29) 29.
Proof.
  assert (Hp : product_modulus_ok 29) by (unfold product_modulus_ok; lia).
  split; [split; [exact Hp | lia] |].
  apply (field_ring_laws 28 27 13 29 Hp); lia.
Defined.

(** ** Canonical form *)

Lemma pop_zeros_split (r : list Z) : exists k, r = replicate k 0 ++ pop_zeros r.
Proof.
  induction r as [| c r [k IH]]; [now exists 0%nat |].
  simpl. destruct (Z.eqb_spec c 0) as [-> | Hc].
  - exists (S k). simpl. now rewrite <- IH.
  - now exists 0%nat.
Qed.

Lemma pop_zeros_head (r : list Z) (c : Z) (r' : list Z) :
  pop_zeros r = c :: r' -> c <> 0.
Proof.
  induction r as [| d r IH]; simpl; [discriminate |].
  destruct (Z.eqb_spec d 0) as [-> | Hd]; [exact IH |].
  now intros [= <- _].
Qed.

Lemma pop_zeros_idempotent (r : list Z) : pop_zeros (pop_zeros r) = pop_zeros r.
Proof.
  destruct (pop_zeros r) as [| c r'] eqn:E; [reflexivity |].
  apply pop_zeros_head in E. simpl.
  destruct (Z.eqb_spec c 0); [contradiction | reflexivity].
Qed.

Lemma rev_zeros (k : nat) : rev (replicate k 0) = replicate k 0.
Proof.
  rewrite <- (length_replicate k 0) at 2. rewrite <- length_rev.
  apply all_zero_replicate, List.Forall_forall. intros c Hc.
  apply in_rev, list_elem_of_In, elem_of_replicate in Hc. tauto.
Qed.

Lemma trim_decompose (A : Polynomial) : exists k, A = trim A ++ replicate k 0.
Proof.
  destruct (pop_zeros_split (rev A)) as [k Hk]. exists k. unfold trim.
  rewrite <- (rev_involutive A) at 1. rewrite Hk at 1.
  now rewrite rev_app_distr, rev_zeros.
Qed.

(** X4.  [trim] computes a canonical form: it only removes trailing
    coefficients, every coefficient keeps its value, the last coefficient of
    a non-empty result is not zero, trimming twice changes nothing, and the
    result is empty exactly when all coefficients are zero. *)
Theorem trim_is_canonical (A : Polynomial) :
  (exists k, A = trim A ++ replicate k 0) /\
  (forall i, coeff (trim A) i = coeff A i) /\
  (trim A <> [] -> coeff (trim A) (length (trim A) - 1) <> 0) /\
  trim (trim A) = trim A /\
  (trim A = [] <-> Forall (fun c => c = 0) A).
Proof.
  split; [apply trim_decompose |]. split; [| split; [| split]].
  - intros i. destruct (trim_decompose A) as [k Hk].
    rewrite Hk at 2. now rewrite coeff_app_zeros.
  - unfold trim. destruct (pop_zeros (rev A)) as [| c r'] eqn:E; [easy |].
    intros _. apply pop_zeros_head in E. simpl rev.
    rewrite length_app, Nat.add_sub. unfold coeff.
    rewrite app_nth2, Nat.sub_diag by lia. exact E.
  - unfold trim. now rewrite rev_involutive, pop_zeros_idempotent.
  - split.
    + intros Hnil. destruct (trim_decompose A) as [k Hk].
      rewrite Hnil in Hk. rewrite Hk. simpl.
      apply List.Forall_forall. intros c Hc.
      apply list_elem_of_In, elem_of_replicate in Hc. tauto.
    + intros Hz. rewrite (all_zero_replicate A Hz). apply trim_zeros.
Qed.

(** ** Addition of polynomials *)

Lemma poly_add_coeff_all (p : Z) (A B : Polynomial) (i : nat) :
  modulus_ok p ->
  coeff (poly_add p A B) i = FieldArithmetic.add (coeff A i) (coeff B i) p.
Proof.
  intros Hp. destruct (Nat.lt_ge_cases i (Nat.max (length A) (length B))) as [Hlt | Hge].
  - now apply poly_add_coeff.
  - rewrite !coeff_beyond by (rewrite ?poly_add_length; lia).
    symmetry. apply FieldFacts.add_zero_l; [exact Hp | unfold modulus_ok in Hp; lia].
Qed.

Lemma poly_add_in_field (p : Z) (A B : Polynomial) :
  modulus_ok p -> in_field p (poly_add p A B).
Proof.
  intros Hp. apply coeff_Forall. intros k _.
  rewrite poly_add_coeff_all by exact Hp. apply FieldFacts.add_range, Hp.
Qed.

Lemma poly_add_comm (p : Z) (A B : Polynomial) : poly_add p A B = poly_add p B A.
Proof.
  apply coeff_ext.
  - rewrite !poly_add_length. lia.
  - intros k Hk. rewrite poly_add_length in Hk.
    rewrite !poly_add_coeff by lia.
    unfold FieldArithmetic.add. now rewrite Z.add_comm.
Qed.

(** X5.  [operator+] of both variants is commutative, its result has the
    length of the longer operand, and every coefficient of the result is a
    normalised field element, whatever the coefficients of the operands
    (with two's complement wrap-around where a sum leaves [int]). *)
Theorem polynomial_sum_is_commutative_and_normalised (q : Z) (A B : Polynomial) :
  modulus_ok q ->
  (Proc.op_plus q A B = Proc.op_plus q B A /\
   length (Proc.op_plus q A B) = Nat.max (length A) (length B) /\
   in_field q (Proc.op_plus q A B)) /\
  (OOP.op_plus A B = OOP.op_plus B A /\
   length (OOP.op_plus A B) = Nat.max (length A) (length B) /\
   in_field OOP.MODULO (OOP.op_plus A B)).
Proof.
  intros Hq. split; repeat split.
  - apply poly_add_comm.
  - apply poly_add_length.
  - now apply poly_add_in_field.
  - apply poly_add_comm.
  - apply poly_add_length.
  - apply poly_add_in_field. unfold modulus_ok, OOP.MODULO. lia.
Qed.

Lemma polynomial_sum_is_commutative_and_normalised_witness :
  modulus_ok 23 /\
  (Proc.op_plus 23 [22; -5; 100] [7] = Proc.op_plus 23 [7] [22; -5; 100] /\
   length (Proc.op_plus 23 [22; -5; 100] [7]) = Nat.max (length [22; -5; 100]) (length [7]) /\
   in_field 23 (Proc.op_plus 23 [22; -5; 100] [7])) /\
  (OOP.op_plus [22; -5; 100] [7] = OOP.op_plus [7] [22; -5; 100] /\
   length (OOP.op_plus [22; -5; 100] [7]) = Nat.max (length [22; -5; 100]) (length [7]) /\
   in_field OOP.MODULO (OOP.op_plus [22; -5; 100] [7])).
Proof.
  assert (Hq : modulus_ok 23) by (unfold modulus_ok; lia).
  split; [exact Hq |].
  apply (polynomial_sum_is_commutative_and_normalised 23 [22; -5; 100] [7] Hq).
Defined.

(** X6.  On polynomials whose coefficients have magnitude at most 46340,
    [operator+] is associative. *)
Theorem polynomial_sum_is_associative (q : Z) (A B C : Polynomial) :
  modulus_ok q -> Forall small A -> Forall small B -> Forall small C ->
  Proc.op_plus q (Proc.op_plus q A B) C = Proc.op_plus q A (Proc.op_plus q B C).
Proof.
  intros Hq HA HB HC. unfold Proc.op_plus. apply coeff_ext.
  - rewrite !poly_add_length. lia.
  - intros k _. rewrite !poly_add_coeff_all by exact Hq.
    assert (Hz : small 0) by (unfold small; lia).
    pose proof (Forall_coeff small A Hz HA k) as Ha.
    pose proof (Forall_coeff small B Hz HB k) as Hb.
    pose proof (Forall_coeff small C Hz HC k) as Hc.
    pose proof (FieldFacts.add_range (coeff A k) (coeff B k) q Hq) as Rab.
    pose proof (FieldFacts.add_range (coeff B k) (coeff C k) q Hq) as Rbc.
    unfold small, modulus_ok in *.
    rewrite (FieldFacts.add_spec _ (coeff C k)), (FieldFacts.add_spec (coeff A k) _)
      by (unfold modulus_ok, INT_MIN, INT_MAX; lia).
    rewrite !FieldFacts.add_spec by (unfold modulus_ok, INT_MIN, INT_MAX; lia).
    rewrite Zplus_mod_idemp_l, Zplus_mod_idemp_r. f_equal. ring.
Qed.

Lemma polynomial_sum_is_associative_witness :
  (modulus_ok 23 /\ Forall small [22; -5] /\ Forall small [7; 100; 3] /\ Forall small [19]) /\
  Proc.op_plus 23 (Proc.op_plus 23 [22; -5] [7; 100; 3]) [19]
  = Proc.op_plus 23 [22; -5] (Proc.op_plus 23 [7; 100; 3] [19]).
Proof.
  assert (Hq : modulus_ok 23) by (unfold modulus_ok; lia).
  assert (HA : Forall small [22; -5]) by (repeat constructor; unfold small; lia).
  assert (HB : Forall small [7; 100; 3]) by (repeat constructor; unfold small; lia).
  assert (HC : Forall small [19]) by (repeat constructor; unfold small; lia).
  split; [auto |].
  apply (polynomial_sum_is_associative 23 [22; -5] [7; 100; 3] [19] Hq HA HB HC).
Defined.

(** X7.  The empty polynomial is a neutral element of [operator+] on
    polynomials over the field, on both sides; its product with a non-empty
    polynomial, on either side, is a polynomial of zeros that trims to the
    empty polynomial. *)
Theorem empty_polynomial_laws (q : Z) (A : Polynomial) :
  modulus_ok q -> in_field q A -> A <> [] ->
  Z.of_nat (length A) <= vector_max_size ->
  Proc.op_plus q [] A = A /\
  Proc.op_plus q A [] = A /\
  (exists R, Proc.op_times q [] A = Some R /\ trim R = []) /\
  (exists R, Proc.op_times q A [] = Some R /\ trim R = []).
Proof.
  intros Hq HA Hne Hfit.
  assert (Hlen : (0 < length A)%nat) by (destruct A; [contradiction | simpl; lia]).
  split; [now apply zero_plus |]. split; [| split].
  - unfold Proc.op_plus. rewrite poly_add_comm. now apply zero_plus.
  - apply zero_times_nonempty; [exact Hq |].
    unfold product_fits. simpl. lia.
  - exists (replicate (length A + 0 - 1) 0). split; [| apply trim_zeros].
    apply (poly_mul_zeros_r q Hq A 0). unfold product_fits. simpl. lia.
Qed.

Lemma empty_polynomial_laws_witness :
  (modulus_ok 17 /\ in_field 17 [3; 0; 16] /\ [3; 0; 16] <> [] /\
   Z.of_nat (length [3; 0; 16]) <= vector_max_size) /\
  Proc.op_plus 17 [] [3; 0; 16] = [3; 0; 16] /\
  Proc.op_plus 17 [3; 0; 16] [] = [3; 0; 16] /\
  (exists R, Proc.op_times 17 [] [3; 0; 16] = Some R /\ trim R = []) /\
  (exists R, Proc.op_times 17 [3; 0; 16] [] = Some R /\ trim R = []).
Proof.
  assert (Hq : modulus_ok 17) by (unfold modulus_ok; lia).
  assert (HA : in_field 17 [3; 0; 16]) by (unfold in_field; repeat constructor; lia).
  assert (Hne : [3; 0; 16] <> []) by discriminate.
  assert (Hfit : Z.of_nat (length [3; 0; 16]) <= vector_max_size).
  { unfold vector_max_size. simpl. lia. }
  split; [auto |].
  apply (empty_polynomial_laws 17 [3; 0; 16] Hq HA Hne Hfit).
Defined.

(** ** Sums *)

Lemma sum_upto_ext (f g : nat -> Z) (m : nat) :
  (forall i, (i < m)%nat -> f i = g i) -> sum_upto f m = sum_upto g m.
Proof.
  induction m as [| m IH]; intros H; simpl; [reflexivity |].
  rewrite IH, H by (intros; try apply H; lia). reflexivity.
Qed.

Lemma sum_upto_zero (h : nat -> Z) (m : nat) :
  (forall i, (i < m)%nat -> h i = 0) -> sum_upto h m = 0.
Proof.
  induction m as [| m IH]; intros H; simpl; [reflexivity |].
  rewrite IH, H by (intros; try apply H; lia). reflexivity.
Qed.

Lemma sum_upto_extend (h : nat -> Z) (m extra : nat) :
  (forall i, (m <= i < m + extra)%nat -> h i = 0) ->
  sum_upto h (m + extra) = sum_upto h m.
Proof.
  induction extra as [| e IH]; intros H.
  - now rewrite Nat.add_0_r.
  - rewrite Nat.add_succ_r. simpl. rewrite IH, H by (intros; try apply H; lia). lia.
Qed.

Lemma sum_upto_shift (h : nat -> Z) (m : nat) :
  sum_upto h (S m) = h 0%nat + sum_upto (fun i => h (S i)) m.
Proof.
  induction m as [| m IH]; [simpl; lia |].
  change (sum_upto h (S (S m))) with (sum_upto h (S m) + h (S m)).
  rewrite IH. simpl. lia.
Qed.

Lemma sum_upto_rev (h : nat -> Z) (m : nat) :
  sum_upto h m = sum_upto (fun i => h (m - 1 - i)%nat) m.
Proof.
  revert h. induction m as [| m IH]; intros h; [reflexivity |].
  rewrite sum_upto_shift.
  set (g := fun i => h (S m - 1 - i)%nat).
  change (sum_upto g (S m)) with (sum_upto g m + g m).
  assert (Hg : g m = h 0%nat) by (unfold g; f_equal; lia).
  rewrite Hg, (IH (fun i => h (S i))).
  rewrite (sum_upto_ext g (fun i => h (S (m - 1 - i)))).
  - lia.
  - intros i Hi. unfold g. f_equal. lia.
Qed.

Lemma sum_upto_add (f g : nat -> Z) (m : nat) :
  sum_upto (fun i => f i + g i) m = sum_upto f m + sum_upto g m.
Proof. induction m as [| m IH]; simpl; [reflexivity | rewrite IH; ring]. Qed.

Lemma sum_upto_le (h : nat -> Z) (m m' : nat) :
  (m <= m')%nat -> (forall i, (m <= i < m')%nat -> h i = 0) ->
  sum_upto h m' = sum_upto h m.
Proof.
  intros Hle H. replace m' with (m + (m' - m))%nat by lia.
  apply sum_upto_extend. intros i Hi. apply H. lia.
Qed.

(** ** Multiplication of polynomials *)

Lemma row_sum_closed (a : Z) (B : list Z) (i k nj : nat) :
  row_sum a B i k nj =
  if (i <=? k)%nat && (k <? i + nj)%nat then a * coeff B (k - i) else 0.
Proof.
  induction nj as [| j IH]; simpl.
  - destruct (Nat.leb_spec i k), (Nat.ltb_spec k (i + 0)); simpl; try reflexivity; lia.
  - rewrite IH.
    destruct (Nat.eqb_spec (i + j) k) as [E | E];
      destruct (Nat.leb_spec i k), (Nat.ltb_spec k (i + j)), (Nat.ltb_spec k (i + S j));
      simpl; try lia.
    replace (k - i)%nat with j by lia. lia.
Qed.

Lemma row_sum_full (a : Z) (B : list Z) (i k : nat) :
  row_sum a B i k (length B) = if (i <=? k)%nat then a * coeff B (k - i) else 0.
Proof.
  rewrite row_sum_closed.
  destruct (Nat.leb_spec i k), (Nat.ltb_spec k (i + length B)); simpl; try reflexivity.
  rewrite (coeff_beyond B) by lia. lia.
Qed.

(** The convolution as a Cauchy product. *)
Lemma convolution_cauchy (A B : list Z) (k : nat) :
  convolution A B k = sum_upto (fun i => coeff A i * coeff B (k - i)) (S k).
Proof.
  unfold convolution.
  set (g := fun i => if (i <=? k)%nat then coeff A i * coeff B (k - i) else 0).
  assert (Hc : forall ni, conv_upto A B k ni = sum_upto g ni).
  { induction ni as [| i IH]; [reflexivity |].
    simpl. rewrite IH, row_sum_full. reflexivity. }
  rewrite Hc.
  transitivity (sum_upto g (Nat.max (length A) (S k))).
  - symmetry. apply sum_upto_le; [lia |].
    intros i Hi. unfold g. rewrite (coeff_beyond A) by lia.
    destruct (i <=? k)%nat; lia.
  - rewrite (sum_upto_le g (S k)); [| lia |].
    + apply sum_upto_ext. intros i Hi. unfold g.
      destruct (Nat.leb_spec i k); [reflexivity | lia].
    + intros i Hi. unfold g. destruct (Nat.leb_spec i k); [lia | reflexivity].
Qed.

Lemma convolution_comm (A B : list Z) (k : nat) :
  convolution A B k = convolution B A k.
Proof.
  rewrite !convolution_cauchy, sum_upto_rev.
  apply sum_upto_ext. intros i Hi.
  replace (S k - 1 - i)%nat with (k - i)%nat by lia.
  replace (k - (k - i))%nat with i by lia. ring.
Qed.

Lemma product_fits_comm (A B : Polynomial) : product_fits A B -> product_fits B A.
Proof. unfold product_fits. lia. Qed.

Lemma poly_mul_comm (p : Z) (A B : Polynomial) :
  modulus_ok p -> Forall small A -> Forall small B -> product_fits A B ->
  poly_mul p A B = poly_mul p B A.
Proof.
  intros Hp HA HB Hfit.
  destruct (poly_mul_convolution p Hp A B HA HB Hfit) as (R & E & Hl & _ & Hc).
  destruct (poly_mul_convolution p Hp B A HB HA (product_fits_comm A B Hfit))
    as (R' & E' & Hl' & _ & Hc').
  rewrite E, E'. f_equal. apply coeff_ext; [lia |].
  intros k _. now rewrite Hc, Hc', convolution_comm.
Qed.

(** X8.  [operator*] of both variants is commutative on polynomials that
    are not both empty and whose coefficients have magnitude at most
    46340. *)
Theorem polynomial_product_is_commutative (q : Z) (A B : Polynomial) :
  modulus_ok q -> Forall small A -> Forall small B -> product_fits A B ->
  Proc.op_times q A B = Proc.op_times q B A /\
  OOP.op_times A B = OOP.op_times B A /\
  exists R, Proc.op_times q A B = Some R.
Proof.
  intros Hq HA HB Hfit. split; [| split].
  - now apply poly_mul_comm.
  - apply poly_mul_comm; trivial. unfold modulus_ok, OOP.MODULO. lia.
  - destruct (poly_mul_some q A B Hfit) as (R & E & _). now exists R.
Qed.

Lemma polynomial_product_is_commutative_witness :
  (modulus_ok 23 /\ Forall small [1; -2; 3] /\ Forall small [4; 5] /\
   product_fits [1; -2; 3] [4; 5]) /\
  Proc.op_times 23 [1; -2; 3] [4; 5] = Proc.op_times 23 [4; 5] [1; -2; 3] /\
  OOP.op_times [1; -2; 3] [4; 5] = OOP.op_times [4; 5] [1; -2; 3] /\
  exists R, Proc.op_times 23 [1; -2; 3] [4; 5] = Some R.
Proof.
  assert (Hq : modulus_ok 23) by (unfold modulus_ok; lia).
  assert (HA : Forall small [1; -2; 3]) by (repeat constructor; unfold small; lia).
  assert (HB : Forall small [4; 5]) by (repeat constructor; unfold small; lia).
  assert (Hfit : product_fits [1; -2; 3] [4; 5]).
  { unfold product_fits, vector_max_size. simpl. lia. }
  split; [auto |].
  apply (polynomial_product_is_commutative 23 [1; -2; 3] [4; 5] Hq HA HB Hfit).
Defined.

Lemma in_field_small (p : Z) (A : list Z) :
  product_modulus_ok p -> in_field p A -> Forall small A.
Proof.
  intros Hp HA. eapply Forall_impl; [exact HA |].
  simpl. unfold product_modulus_ok, small in *. lia.
Qed.

Lemma convolution_one_l (A : list Z) (k : nat) : convolution [1] A k = coeff A k.
Proof.
  rewrite convolution_cauchy, sum_upto_shift.
  rewrite sum_upto_zero.
  - rewrite Nat.sub_0_r. unfold coeff at 1. simpl. lia.
  - intros i _. unfold coeff at 1. simpl. destruct i; reflexivity.
Qed.

(** X9.  The constant polynomial [[1]] is a neutral element of [operator*]
    on polynomials over the field, on both sides, for a modulus of at most
    46341. *)
Theorem constant_one_is_neutral (q : Z) (A : Polynomial) :
  product_modulus_ok q -> in_field q A ->
  Z.of_nat (length A) <= vector_max_size ->
  Proc.op_times q [1] A = Some A /\ Proc.op_times q A [1] = Some A.
Proof.
  intros Hpm HA Hlen.
  pose proof (product_modulus_is_modulus q Hpm) as Hq.
  pose proof (in_field_small q A Hpm HA) as HsA.
  assert (Hs1 : Forall small [1]) by (repeat constructor; unfold small; lia).
  assert (Hfit : product_fits [1] A) by (unfold product_fits; simpl; lia).
  assert (E1 : poly_mul q [1] A = Some A).
  { destruct (poly_mul_convolution q Hq [1] A Hs1 HsA Hfit) as (R & E & Hl & _ & Hc).
    rewrite E. f_equal. apply coeff_ext; [simpl in Hl; lia |].
    intros k _. rewrite Hc, convolution_one_l.
    apply Z.mod_small. now apply in_field_coeff. }
  unfold Proc.op_times. split; [exact E1 |].
  rewrite <- E1. symmetry. now apply poly_mul_comm.
Qed.

Lemma constant_one_is_neutral_witness :
  (product_modulus_ok 17 /\ in_field 17 [3; 0; 16] /\
   Z.of_nat (length [3; 0; 16]) <= vector_max_size) /\
  Proc.op_times 17 [1] [3; 0; 16] = Some [3; 0; 16] /\
  Proc.op_times 17 [3; 0; 16] [1] = Some [3; 0; 16].
Proof.
  assert (Hq : product_modulus_ok 17) by (unfold product_modulus_ok; lia).
  assert (HA : in_field 17 [3; 0; 16]) by (unfold in_field; repeat constructor; lia).
  assert (Hfit : Z.of_nat (length [3; 0; 16]) <= vector_max_size).
  { unfold vector_max_size. simpl. lia. }
  split; [auto |].
  apply (constant_one_is_neutral 17 [3; 0; 16] Hq HA Hfit).
Defined.

(** ** Reduction modulo [t^n - 1], coefficient by coefficient *)

Lemma sum_upto_mod_congr (f g : nat -> Z) (m : nat) (q : Z) :
  (forall i, (i < m)%nat -> f i mod q = g i mod q) ->
  sum_upto f m mod q = sum_upto g m mod q.
Proof.
  induction m as [| m IH]; intros H; simpl; [reflexivity |].
  rewrite Zplus_mod, IH, H by (intros; try apply H; lia).
  now rewrite <- Zplus_mod.
Qed.

Lemma fold_sum_beyond (A : list Z) (N k count : nat) :
  (length A <= count)%nat -> fold_sum A N k count = fold_sum A N k (length A).
Proof.
  intros Hle. unfold fold_sum. apply sum_upto_le; [exact Hle |].
  intros i Hi. rewrite coeff_beyond by lia. now destruct (_ =? _)%nat.
Qed.

Lemma addable_field (q : Z) (A : list Z) :
  modulus_ok q -> in_field q A -> Forall addable A.
Proof.
  intros Hq HA. eapply Forall_impl; [exact HA |].
  simpl. unfold modulus_ok, addable in *. lia.
Qed.

Lemma small_addable (A : list Z) : Forall small A -> Forall addable A.
Proof.
  intros HA. eapply Forall_impl; [exact HA |]. simpl. unfold small, addable. lia.
Qed.

(** Invariant of the loop of [mod_tn] after [count] coefficients. *)
Lemma reduce_loop_sums (q : Z) (N : nat) (A : list Z) (count : nat) :
  modulus_ok q -> (0 < N)%nat -> Forall addable A ->
  let r := reduce_loop q N A count (replicate N 0) in
  length r = N /\ in_field q r /\
  forall k, (k < N)%nat -> coeff r k = fold_sum A N k count mod q.
Proof.
  intros Hq HN HA. induction count as [| c (IHl & IHf & IHc)]; cbv zeta.
  - change (reduce_loop q N A 0 (replicate N 0)) with (replicate N 0).
    split; [apply length_replicate |]. split; [now apply in_field_replicate |].
    intros k _. now rewrite coeff_replicate.
  - unfold reduce_loop in *. rewrite for_range_S. cbv zeta.
    set (r := for_range c _ (replicate N 0)) in *.
    assert (Hk0 : (c mod N < N)%nat) by (apply Nat.mod_upper_bound; lia).
    assert (Hadd : FieldArithmetic.add (coeff r (c mod N)) (coeff A c) q
                   = (fold_sum A N (c mod N) c + coeff A c) mod q).
    { pose proof (in_field_coeff q Hq r (c mod N) IHf) as Hr.
      assert (Hz : addable 0) by (unfold addable; lia).
      pose proof (Forall_coeff addable A Hz HA c) as Ha.
      unfold addable, modulus_ok in *.
      rewrite FieldFacts.add_spec by (unfold modulus_ok, INT_MIN, INT_MAX; lia).
      rewrite (IHc _ Hk0). apply Zplus_mod_idemp_l. }
    split; [now rewrite length_insert |].
    split; [apply in_field_insert; trivial; apply FieldFacts.add_range, Hq |].
    intros k Hk. rewrite coeff_insert, IHl. unfold fold_sum. simpl sum_upto.
    fold (fold_sum A N k c).
    destruct (Nat.eqb_spec (c mod N) k) as [<- | Hne]; simpl.
    + destruct (Nat.ltb_spec (c mod N) N); [exact Hadd | lia].
    + rewrite (IHc k Hk). f_equal. lia.
Qed.

Lemma mod_tn_sums (q n : Z) (A : Polynomial) :
  modulus_ok q -> dimension_ok n -> Forall addable A ->
  exists R, Proc.mod_tn q n A = Some R /\
    length R = Z.to_nat n /\ in_field q R /\
    forall k, (k < Z.to_nat n)%nat ->
      coeff R k = fold_sum A (Z.to_nat n) k (length A) mod q.
Proof.
  intros Hq Hn HA. eexists. split; [apply mod_tn_unfold, Hn |].
  apply reduce_loop_sums; trivial. unfold dimension_ok in Hn. lia.
Qed.

(** X10.  For a polynomial [A] whose coefficients have magnitude at most
    [2^30] (so that adding one to a field element stays in [int]),
    coefficient [k] of [mod_tn(A)] is the sum of the coefficients [A[i]]
    whose index [i] is congruent to [k] modulo [n], reduced modulo [q];
    this is the remainder of [A] modulo [t^n - 1]. *)
Theorem reduction_sums_congruent_indices (q n : Z) (A : Polynomial) :
  modulus_ok q -> dimension_ok n -> Forall addable A ->
  exists R, Proc.mod_tn q n A = Some R /\
    Z.of_nat (length R) = n /\
    forall k, Z.of_nat k < n ->
      coeff R k = fold_sum A (Z.to_nat n) k (length A) mod q.
Proof.
  intros Hq Hn HA.
  destruct (mod_tn_sums q n A Hq Hn HA) as (R & E & Hl & _ & Hc).
  exists R. split; [exact E |]. unfold dimension_ok in Hn.
  split; [lia |]. intros k Hk. apply Hc. lia.
Qed.

Lemma reduction_sums_congruent_indices_witness :
  (modulus_ok 17 /\ dimension_ok 3 /\ Forall addable [1; 2; 3; 4; 5; 6; 7]) /\
  exists R, Proc.mod_tn 17 3 [1; 2; 3; 4; 5; 6; 7] = Some R /\
    Z.of_nat (length R) = 3 /\
    forall k, Z.of_nat k < 3 ->
      coeff R k = fold_sum [1; 2; 3; 4; 5; 6; 7] (Z.to_nat 3) k
                    (length [1; 2; 3; 4; 5; 6; 7]) mod 17.
Proof.
  assert (Hq : modulus_ok 17) by (unfold modulus_ok; lia).
  assert (Hn : dimension_ok 3) by (unfold dimension_ok, INT_MAX; lia).
  assert (HA : Forall addable [1; 2; 3; 4; 5; 6; 7]).
  { repeat constructor; unfold addable; lia. }
  split; [auto |].
  apply (reduction_sums_congruent_indices 17 3 [1; 2; 3; 4; 5; 6; 7] Hq Hn HA).
Defined.

(** X11.  A polynomial over the field with at most [n] coefficients is its
    own remainder: [mod_tn] only pads it with zeros up to length [n], so
    the trimmed polynomial is unchanged. *)
Theorem reduction_pads_short_polynomials (q n : Z) (A : Polynomial) :
  modulus_ok q -> dimension_ok n -> in_field q A -> Z.of_nat (length A) <= n ->
  Proc.mod_tn q n A = Some (A ++ replicate (Z.to_nat n - length A) 0) /\
  trim (A ++ replicate (Z.to_nat n - length A) 0) = trim A.
Proof.
  intros Hq Hn HA Hlen. split; [| apply trim_app_zeros].
  rewrite <- (mod_tn_app_zeros q n Hq Hn A (Z.to_nat n - length A)).
  apply mod_tn_reduced; trivial.
  - rewrite length_app, length_replicate. lia.
  - now apply in_field_app_zeros.
Qed.

Lemma reduction_pads_short_polynomials_witness :
  (modulus_ok 17 /\ dimension_ok 5 /\ in_field 17 [1; 0; 3] /\
   Z.of_nat (length [1; 0; 3]) <= 5) /\
  Proc.mod_tn 17 5 [1; 0; 3]
  = Some ([1; 0; 3] ++ replicate (Z.to_nat 5 - length [1; 0; 3]) 0) /\
  trim ([1; 0; 3] ++ replicate (Z.to_nat 5 - length [1; 0; 3]) 0) = trim [1; 0; 3].
Proof.
  assert (Hq : modulus_ok 17) by (unfold modulus_ok; lia).
  assert (Hn : dimension_ok 5) by (unfold dimension_ok, INT_MAX; lia).
  assert (HA : in_field 17 [1; 0; 3]) by (unfold in_field; repeat constructor; lia).
  assert (Hlen : Z.of_nat (length [1; 0; 3]) <= 5) by (simpl; lia).
  split; [auto |].
  apply (reduction_pads_short_polynomials 17 5 [1; 0; 3] Hq Hn HA Hlen).
Defined.

Lemma mod_tn_additive (q n : Z) (A B : Polynomial) :
  modulus_ok q -> dimension_ok n -> Forall small A -> Forall small B ->
  exists RA RB,
    Proc.mod_tn q n A = Some RA /\ Proc.mod_tn q n B = Some RB /\
    Proc.mod_tn q n (Proc.op_plus q A B) = Some (Proc.op_plus q RA RB).
Proof.
  intros Hq Hn HA HB.
  set (N := Z.to_nat n).
  destruct (mod_tn_sums q n A Hq Hn (small_addable A HA)) as (RA & EA & HlA & HfA & HcA).
  destruct (mod_tn_sums q n B Hq Hn (small_addable B HB)) as (RB & EB & HlB & HfB & HcB).
  pose proof (poly_add_in_field q A B Hq) as Hsum.
  destruct (mod_tn_sums q n (poly_add q A B) Hq Hn (addable_field q _ Hq Hsum))
    as (R & ER & HlR & HfR & HcR).
  exists RA, RB. split; [exact EA |]. split; [exact EB |].
  unfold Proc.op_plus. rewrite ER. f_equal. apply coeff_ext.
  - rewrite poly_add_length. lia.
  - intros k Hk. fold N in HcA, HcB, HcR, HlA, HlB, HlR.
    rewrite HcR by lia. rewrite poly_add_coeff_all by exact Hq.
    rewrite HcA, HcB by lia.
    pose proof (Z.mod_pos_bound (fold_sum A N k (length A)) q) as RA'.
    pose proof (Z.mod_pos_bound (fold_sum B N k (length B)) q) as RB'.
    assert (Hq' := Hq). unfold modulus_ok in Hq'.
    rewrite FieldFacts.add_spec by (unfold INT_MIN, INT_MAX; trivial; lia).
    rewrite <- Zplus_mod.
    set (M := Nat.max (length A) (length B)).
    rewrite poly_add_length. fold M.
    rewrite <- (fold_sum_beyond A N k M), <- (fold_sum_beyond B N k M) by lia.
    unfold fold_sum. rewrite <- sum_upto_add.
    apply sum_upto_mod_congr. intros i Hi.
    destruct (i mod N =? k)%nat; [| reflexivity].
    rewrite poly_add_coeff_all by exact Hq.
    assert (Hz : small 0) by (unfold small; lia).
    pose proof (Forall_coeff small A Hz HA i) as Ha.
    pose proof (Forall_coeff small B Hz HB i) as Hb.
    unfold small in *.
    rewrite FieldFacts.add_spec by (unfold INT_MIN, INT_MAX; trivial; lia).
    apply Z.mod_mod. lia.
Qed.

(** X12.  Reduction is additive: the remainder of a sum is the sum of the
    remainders, for polynomials whose coefficients have magnitude at most
    46340. *)
Theorem reduction_is_additive (q n : Z) (A B : Polynomial) :
  modulus_ok q -> dimension_ok n -> Forall small A -> Forall small B ->
  exists RA RB,
    Proc.mod_tn q n A = Some RA /\ Proc.mod_tn q n B = Some RB /\
    Proc.mod_tn q n (Proc.op_plus q A B) = Some (Proc.op_plus q RA RB).
Proof. apply mod_tn_additive. Qed.

Lemma reduction_is_additive_witness :
  (modulus_ok 17 /\ dimension_ok 3 /\ Forall small [1; 2; 3; 4; 5; 6; 7] /\
   Forall small [16; 15; 14; 13]) /\
  exists RA RB,
    Proc.mod_tn 17 3 [1; 2; 3; 4; 5; 6; 7] = Some RA /\
    Proc.mod_tn 17 3 [16; 15; 14; 13] = Some RB /\
    Proc.mod_tn 17 3 (Proc.op_plus 17 [1; 2; 3; 4; 5; 6; 7] [16; 15; 14; 13])
    = Some (Proc.op_plus 17 RA RB).
Proof.
  assert (Hq : modulus_ok 17) by (unfold modulus_ok; lia).
  assert (Hn : dimension_ok 3) by (unfold dimension_ok, INT_MAX; lia).
  assert (HA : Forall small [1; 2; 3; 4; 5; 6; 7]).
  { repeat constructor; unfold small; lia. }
  assert (HB : Forall small [16; 15; 14; 13]).
  { repeat constructor; unfold small; lia. }
  split; [auto |].
  apply (reduction_is_additive 17 3 [1; 2; 3; 4; 5; 6; 7] [16; 15; 14; 13] Hq Hn HA HB).
Defined.

(** ** Evaluation *)

Lemma small_times_field (c w p : Z) :
  product_modulus_ok p -> small c -> 0 <= w <= p -> INT_MIN <= c * w <= INT_MAX.
Proof. unfold product_modulus_ok, small, INT_MIN, INT_MAX. intros Hp Hc Hw. nia. Qed.

Lemma polynomial_value_snoc (A : list Z) (c t : Z) :
  polynomial_value (A ++ [c]) t = polynomial_value A t + c * t ^ Z.of_nat (length A).
Proof.
  unfold polynomial_value. rewrite length_app, Nat.add_1_r. simpl sum_upto.
  f_equal.
  - apply sum_upto_ext. intros i Hi. unfold coeff. now rewrite app_nth1.
  - unfold coeff. rewrite app_nth2, Nat.sub_diag by lia. reflexivity.
Qed.

(** Invariant of the loop of [eval]: the pair is [(value, power)]. *)
Lemma eval_state (p : Z) (A : list Z) (t : Z) :
  product_modulus_ok p -> Forall small A -> small t ->
  let s := fold_left
             (fun '(value, power) c =>
                (FieldArithmetic.add value (FieldArithmetic.mul c power p) p,
                 FieldArithmetic.mul power t p))
             A (0, 1) in
  fst s = polynomial_value A t mod p /\
  0 <= snd s <= p /\
  snd s mod p = t ^ Z.of_nat (length A) mod p.
Proof.
  intros Hpm HA Ht. pose proof (product_modulus_is_modulus p Hpm) as Hp.
  assert (Hpos : 0 < p) by (unfold modulus_ok in Hp; lia).
  induction A as [| c A IH] using rev_ind; cbv zeta.
  - simpl. unfold polynomial_value. simpl. rewrite Z.mod_0_l by lia.
    unfold product_modulus_ok in Hpm. repeat split; lia.
  - apply Forall_app in HA as [HA Hc]. apply Forall_inv in Hc.
    specialize (IH HA). cbv zeta in IH. rewrite fold_left_app.
    destruct (fold_left _ A (0, 1)) as [v pw]. simpl in IH. simpl.
    destruct IH as (Hv & Hpw & Hpm').
    pose proof (small_times_field c pw p Hpm Hc Hpw) as Hcp.
    assert (Htp : INT_MIN <= pw * t <= INT_MAX).
    { rewrite Z.mul_comm. now apply (small_times_field t pw p). }
    pose proof (FieldFacts.mul_range c pw p Hp) as Rm.
    pose proof (FieldFacts.mul_range pw t p Hp) as Rp.
    assert (Rv : 0 <= v < p) by (rewrite Hv; apply Z.mod_pos_bound; lia).
    split; [| split].
    + rewrite FieldFacts.add_spec
        by (trivial; unfold modulus_ok in Hp; unfold INT_MIN, INT_MAX; lia).
      rewrite FieldFacts.mul_spec by assumption.
      rewrite polynomial_value_snoc, Hv.
      rewrite Zplus_mod_idemp_l, Zplus_mod_idemp_r.
      rewrite Zplus_mod, <- (Zmult_mod_idemp_r pw), Hpm', Zmult_mod_idemp_r.
      now rewrite <- Zplus_mod.
    + lia.
    + rewrite FieldFacts.mul_spec by assumption. rewrite Z.mod_mod by lia.
      rewrite length_app, Nat.add_1_r, Nat2Z.inj_succ, Z.pow_succ_r by lia.
      rewrite <- Zmult_mod_idemp_l, Hpm', Zmult_mod_idemp_l.
      f_equal. ring.
Qed.

Lemma poly_eval_value (p : Z) (A : list Z) (t : Z) :
  product_modulus_ok p -> Forall small A -> small t ->
  poly_eval p A t = polynomial_value A t mod p.
Proof. intros Hp HA Ht. unfold poly_eval. now apply (eval_state p A t). Qed.

(** X13.  [eval] of the procedural file and [evaluate] of [main.cpp]
    return the value of the polynomial at [t], the sum of the
    [A[i] * t^i], reduced modulo the modulus, for a modulus of at most
    46341 and coefficients and point of magnitude at most 46340. *)
Theorem evaluation_is_the_polynomial_value (q : Z) (A : Polynomial) (t : Z) :
  product_modulus_ok q -> Forall small A -> small t ->
  Proc.eval q A t = polynomial_value A t mod q /\
  OOP.evaluate A t q = polynomial_value A t mod q.
Proof. intros Hq HA Ht. split; now apply poly_eval_value. Qed.

Lemma evaluation_is_the_polynomial_value_witness :
  (product_modulus_ok 17 /\ Forall small [1; -2; 3] /\ small 5) /\
  Proc.eval 17 [1; -2; 3] 5 = polynomial_value [1; -2; 3] 5 mod 17 /\
  OOP.evaluate [1; -2; 3] 5 17 = polynomial_value [1; -2; 3] 5 mod 17.
Proof.
  assert (Hq : product_modulus_ok 17) by (unfold product_modulus_ok; lia).
  assert (HA : Forall small [1; -2; 3]) by (repeat constructor; unfold small; lia).
  assert (Ht : small 5) by (unfold small; lia).
  split; [auto |].
  apply (evaluation_is_the_polynomial_value 17 [1; -2; 3] 5 Hq HA Ht).
Defined.

Lemma polynomial_value_padded (A : list Z) (t : Z) (m : nat) :
  (length A <= m)%nat ->
  polynomial_value A t = sum_upto (fun i => coeff A i * t ^ Z.of_nat i) m.
Proof.
  intros Hle. unfold polynomial_value. symmetry. apply sum_upto_le; [exact Hle |].
  intros i Hi. rewrite coeff_beyond by lia. ring.
Qed.

(** X14.  Evaluation is additive: for a modulus of at most 46341 and
    coefficients and point of magnitude at most 46340, the value of
    [A + B] at [t] is the field sum of the values of [A] and of [B]. *)
Theorem evaluation_is_additive (q : Z) (A B : Polynomial) (t : Z) :
  product_modulus_ok q -> Forall small A -> Forall small B -> small t ->
  Proc.eval q (Proc.op_plus q A B) t
  = FieldArithmetic.add (Proc.eval q A t) (Proc.eval q B t) q.
Proof.
  intros Hpm HA HB Ht. pose proof (product_modulus_is_modulus q Hpm) as Hq.
  assert (Hpos : 0 < q < 2 ^ 30) by exact Hq.
  unfold Proc.eval, Proc.op_plus.
  pose proof (poly_add_in_field q A B Hq) as Hsum.
  rewrite (poly_eval_value q (poly_add q A B) t Hpm (in_field_small q _ Hpm Hsum) Ht).
  rewrite (poly_eval_value q A t Hpm HA Ht), (poly_eval_value q B t Hpm HB Ht).
  pose proof (Z.mod_pos_bound (polynomial_value A t) q) as RA.
  pose proof (Z.mod_pos_bound (polynomial_value B t) q) as RB.
  rewrite FieldFacts.add_spec by (unfold INT_MIN, INT_MAX; trivial; lia).
  rewrite <- Zplus_mod.
  set (M := Nat.max (length A) (length B)).
  rewrite (polynomial_value_padded A t M), (polynomial_value_padded B t M) by lia.
  unfold polynomial_value. rewrite poly_add_length. fold M.
  rewrite <- sum_upto_add. apply sum_upto_mod_congr. intros i Hi.
  rewrite poly_add_coeff_all by exact Hq.
  assert (Hz : small 0) by (unfold small; lia).
  pose proof (Forall_coeff small A Hz HA i) as Ha.
  pose proof (Forall_coeff small B Hz HB i) as Hb.
  unfold small in Ha, Hb.
  rewrite FieldFacts.add_spec by (unfold INT_MIN, INT_MAX; trivial; lia).
  rewrite Zmult_mod_idemp_l. f_equal. ring.
Qed.

Lemma evaluation_is_additive_witness :
  (product_modulus_ok 17 /\ Forall small [1; -2; 3] /\ Forall small [16; 9] /\ small 5) /\
  Proc.eval 17 (Proc.op_plus 17 [1; -2; 3] [16; 9]) 5
  = FieldArithmetic.add (Proc.eval 17 [1; -2; 3] 5) (Proc.eval 17 [16; 9] 5) 17.
Proof.
  assert (Hq : product_modulus_ok 17) by (unfold product_modulus_ok; lia).
  assert (HA : Forall small [1; -2; 3]) by (repeat constructor; unfold small; lia).
  assert (HB : Forall small [16; 9]) by (repeat constructor; unfold small; lia).
  assert (Ht : small 5) by (unfold small; lia).
  split; [auto |].
  apply (evaluation_is_additive 17 [1; -2; 3] [16; 9] 5 Hq HA HB Ht).
Defined.

(** ** Evaluation and reduction *)

Lemma sum_upto_indicator (x : Z) (g : nat -> Z) (c N : nat) :
  (c < N)%nat ->
  sum_upto (fun k => (if (c =? k)%nat then x else 0) * g k) N = x * g c.
Proof.
  induction N as [| N IH]; intros Hc; [lia |].
  simpl. destruct (Nat.eqb_spec c N) as [-> | Hne].
  - rewrite sum_upto_zero; [lia |].
    intros i Hi. destruct (Nat.eqb_spec N i); [lia | ring].
  - rewrite IH by lia. ring.
Qed.

Lemma power_of_unit (x q : Z) (d : nat) :
  0 < q -> x mod q = 1 mod q -> x ^ Z.of_nat d mod q = 1 mod q.
Proof.
  intros Hq Hx. induction d as [| d IH]; [reflexivity |].
  rewrite Nat2Z.inj_succ, Z.pow_succ_r by lia.
  rewrite Zmult_mod, Hx, IH, <- Zmult_mod. reflexivity.
Qed.

Lemma power_modulo_order (t q : Z) (N i : nat) :
  0 < q -> (0 < N)%nat -> t ^ Z.of_nat N mod q = 1 mod q ->
  t ^ Z.of_nat i mod q = t ^ Z.of_nat (i mod N) mod q.
Proof.
  intros Hq HN Hunit.
  rewrite (Nat.div_mod_eq i N) at 1.
  rewrite Nat2Z.inj_add, Nat2Z.inj_mul, Z.pow_add_r, Z.pow_mul_r by lia.
  rewrite Zmult_mod, (power_of_unit _ q (i / N) Hq Hunit), <- Zmult_mod.
  f_equal. ring.
Qed.

(** Regrouping the monomials of [A] by the residue of their exponent. *)
Lemma regroup_by_residue (A : list Z) (t q : Z) (N L : nat) :
  0 < q -> (0 < N)%nat -> t ^ Z.of_nat N mod q = 1 mod q ->
  sum_upto (fun k => fold_sum A N k L * t ^ Z.of_nat k) N mod q
  = sum_upto (fun i => coeff A i * t ^ Z.of_nat i) L mod q.
Proof.
  intros Hq HN Hunit. induction L as [| L IH].
  - simpl. rewrite sum_upto_zero; [reflexivity |]. intros k _. unfold fold_sum. simpl. ring.
  - simpl sum_upto at 2.
    rewrite (sum_upto_ext _
               (fun k => fold_sum A N k L * t ^ Z.of_nat k
                         + (if (L mod N =? k)%nat then coeff A L else 0) * t ^ Z.of_nat k)).
    + rewrite sum_upto_add, sum_upto_indicator by (apply Nat.mod_upper_bound; lia).
      rewrite Zplus_mod, IH.
      rewrite <- (Zmult_mod_idemp_r (t ^ Z.of_nat (L mod N))).
      rewrite <- (power_modulo_order t q N L Hq HN Hunit), Zmult_mod_idemp_r.
      now rewrite <- Zplus_mod.
    + intros k _. unfold fold_sum. simpl. ring.
Qed.

(** X15.  For a modulus of at most 46341 and coefficients and point of
    magnitude at most 46340, reduction preserves the value of a polynomial
    at every point [t] with [t^n = 1] in the field, as a remainder modulo
    [t^n - 1] must: [eval(mod_tn(A), t) = eval(A, t)]; in particular at
    [t = 1]. *)
Theorem reduction_preserves_value_at_roots_of_unity
    (q n : Z) (A : Polynomial) (t : Z) :
  product_modulus_ok q -> dimension_ok n -> Forall small A -> small t ->
  t ^ n mod q = 1 mod q ->
  exists R, Proc.mod_tn q n A = Some R /\ Proc.eval q R t = Proc.eval q A t.
Proof.
  intros Hpm Hn HA Ht Hunit. pose proof (product_modulus_is_modulus q Hpm) as Hq.
  assert (Hpos : 0 < q) by (unfold modulus_ok in Hq; lia).
  destruct (mod_tn_sums q n A Hq Hn (small_addable A HA)) as (R & E & Hl & Hf & Hc).
  exists R. split; [exact E |]. unfold Proc.eval.
  rewrite (poly_eval_value q R t Hpm (in_field_small q R Hpm Hf) Ht).
  rewrite (poly_eval_value q A t Hpm HA Ht).
  set (N := Z.to_nat n) in *.
  assert (HN : (0 < N)%nat) by (unfold dimension_ok in Hn; lia).
  assert (Hunit' : t ^ Z.of_nat N mod q = 1 mod q).
  { unfold N. rewrite Z2Nat.id by (unfold dimension_ok in Hn; lia). exact Hunit. }
  unfold polynomial_value. rewrite Hl.
  rewrite <- (regroup_by_residue A t q N (length A) Hpos HN Hunit').
  apply sum_upto_mod_congr. intros k Hk.
  rewrite (Hc k Hk). apply Zmult_mod_idemp_l.
Qed.

Lemma reduction_preserves_value_at_roots_of_unity_witness :
  (product_modulus_ok 17 /\ dimension_ok 4 /\ Forall small [1; 2; 3; 4; 5; 6; 7] /\
   small 13 /\ 13 ^ 4 mod 17 = 1 mod 17) /\
  exists R, Proc.mod_tn 17 4 [1; 2; 3; 4; 5; 6; 7] = Some R /\
            Proc.eval 17 R 13 = Proc.eval 17 [1; 2; 3; 4; 5; 6; 7] 13.
Proof.
  assert (Hq : product_modulus_ok 17) by (unfold product_modulus_ok; lia).
  assert (Hn : dimension_ok 4) by (unfold dimension_ok, INT_MAX; lia).
  assert (HA : Forall small [1; 2; 3; 4; 5; 6; 7]).
  { repeat constructor; unfold small; lia. }
  assert (Ht : small 13) by (unfold small; lia).
  assert (Hu : 13 ^ 4 mod 17 = 1 mod 17) by reflexivity.
  split; [auto 6 |].
  apply (reduction_preserves_value_at_roots_of_unity 17 4 [1; 2; 3; 4; 5; 6; 7] 13
           Hq Hn HA Ht Hu).
Defined.

(** ** Products are normalised *)

Lemma mul_row_in_field (p : Z) (A B : Polynomial) (i : nat) (v : list Z) :
  modulus_ok p -> in_field p v ->
  length (mul_row p A B i v) = length v /\ in_field p (mul_row p A B i v).
Proof.
  intros Hp Hv. unfold mul_row. generalize (length B) as nj.
  induction nj as [| j [IHl IHf]]; [easy |].
  rewrite for_range_S. split.
  - now rewrite length_insert.
  - apply in_field_insert; trivial. apply FieldFacts.add_range, Hp.
Qed.

Lemma poly_mul_in_field (p : Z) (A B : Polynomial) :
  modulus_ok p -> product_fits A B ->
  exists R, poly_mul p A B = Some R /\
            length R = (length A + length B - 1)%nat /\ in_field p R.
Proof.
  intros Hp Hfit. destruct (poly_mul_some p A B Hfit) as (R & E & Hl).
  exists R. split; [exact E |]. split; [exact Hl |].
  unfold poly_mul in E. destruct (new_vector _) as [v |] eqn:Ev; [| discriminate].
  simpl in E. injection E as <-.
  assert (Hv : in_field p v).
  { unfold new_vector in Ev. destruct (_ <=? _); [| discriminate].
    injection Ev as <-. now apply in_field_replicate. }
  clear Hl Ev. generalize (length A) as ni.
  induction ni as [| i IH]; [exact Hv |].
  rewrite for_range_S. now apply mul_row_in_field.
Qed.

(** X16.  Whatever the coefficients of the operands (with two's
    complement wrap-around where a product or a sum leaves [int]),
    [operator*] applied to operands that are not both empty returns
    [len A + len B - 1] coefficients that are all normalised field
    elements. *)
Theorem polynomial_product_is_normalised (q : Z) (A B : Polynomial) :
  modulus_ok q -> product_fits A B ->
  (exists R, Proc.op_times q A B = Some R /\
             Z.of_nat (length R) = Z.of_nat (length A) + Z.of_nat (length B) - 1 /\
             in_field q R) /\
  (exists R, OOP.op_times A B = Some R /\
             Z.of_nat (length R) = Z.of_nat (length A) + Z.of_nat (length B) - 1 /\
             in_field OOP.MODULO R).
Proof.
  intros Hq Hfit. assert (Hne := Hfit). destruct Hne as [Hne _]. split.
  - destruct (poly_mul_in_field q A B Hq Hfit) as (R & E & Hl & Hf).
    exists R. repeat split; trivial. lia.
  - assert (H17 : modulus_ok OOP.MODULO) by (unfold modulus_ok, OOP.MODULO; lia).
    destruct (poly_mul_in_field OOP.MODULO A B H17 Hfit) as (R & E & Hl & Hf).
    exists R. repeat split; trivial. lia.
Qed.

Lemma polynomial_product_is_normalised_witness :
  (modulus_ok 23 /\ product_fits [2147483647; -5] [65536; 65536; 7]) /\
  (exists R, Proc.op_times 23 [2147483647; -5] [65536; 65536; 7] = Some R /\
             Z.of_nat (length R)
             = Z.of_nat (length [2147483647; -5]) + Z.of_nat (length [65536; 65536; 7]) - 1 /\
             in_field 23 R) /\
  (exists R, OOP.op_times [2147483647; -5] [65536; 65536; 7] = Some R /\
             Z.of_nat (length R)
             = Z.of_nat (length [2147483647; -5]) + Z.of_nat (length [65536; 65536; 7]) - 1 /\
             in_field OOP.MODULO R).
Proof.
  assert (Hq : modulus_ok 23) by (unfold modulus_ok; lia).
  assert (Hfit : product_fits [2147483647; -5] [65536; 65536; 7]).
  { unfold product_fits, vector_max_size. simpl. lia. }
  split; [auto |].
  apply (polynomial_product_is_normalised 23 [2147483647; -5] [65536; 65536; 7] Hq Hfit).
Defined.

(** ** Keys, ciphertexts and decryption *)

(** X17.  The public polynomial returned by the procedural [keygen] has
    exactly [dX + 1] coefficients, so it is never empty (what
    [test_keygen] asserts) and its degree is [dX]; every coefficient lies
    in [[0, q - 2]]: the field element [q - 1] never occurs. *)
Theorem public_key_shape (q n l dX : Z) (fuel : nat) (gen : Rng) :
  keygen_params_ok q n l dX -> (1 <= fuel)%nat ->
  exists ux uy X gen',
    Proc.keygen q n l dX fuel gen = Done (ux, uy, X, gen') /\
    Z.of_nat (length X) = dX + 1 /\ X <> [] /\ degree X = dX /\
    Forall (fun c => 0 <= c <= q - 2) X.
Proof.
  intros Hok Hfuel.
  destruct (keygen_runs q n l dX fuel gen Hok Hfuel)
    as (ux & uy & X & gen' & E & _ & _ & [HlX HfX] & _).
  destruct Hok as (_ & _ & HdX & _).
  exists ux, uy, X, gen'. split; [exact E |]. split; [exact HlX |]. split; [| split].
  - intros ->. simpl in HlX. lia.
  - apply degree_of_length; lia.
  - eapply Forall_impl; [exact HfX |]. simpl. intros c Hc. lia.
Qed.

Lemma public_key_shape_witness :
  (keygen_params_ok 29 23 8 4 /\ (1 <= 3)%nat) /\
  exists ux uy X gen',
    Proc.keygen 29 23 8 4 3 (mkRng (fun k => Z.of_nat k * 7) 0) = Done (ux, uy, X, gen') /\
    Z.of_nat (length X) = 4 + 1 /\ X <> [] /\ degree X = 4 /\
    Forall (fun c => 0 <= c <= 29 - 2) X.
Proof.
  assert (Hok : keygen_params_ok 29 23 8 4).
  { unfold keygen_params_ok, dimension_ok, INT_MAX. lia. }
  split; [split; [exact Hok | lia] |].
  apply (public_key_shape 29 23 8 4 3 (mkRng (fun k => Z.of_nat k * 7) 0) Hok). lia.
Defined.

Lemma decrypt_in_field (l : Z) (c ux uy : Polynomial) :
  modulus_ok l -> in_field l (Proc.decrypt l c ux uy).
Proof.
  intros Hl. destruct (decrypt_spec l c ux uy) as [Hlen Hco].
  apply coeff_Forall. intros k Hk. rewrite Hlen in Hk.
  rewrite Hco by exact Hk. now apply FieldFacts.mod_range.
Qed.

(** X18.  Every coefficient of a decrypted polynomial lies in [[0, l)],
    whatever the ciphertext, and decrypting the result again changes
    nothing. *)
Theorem decrypt_is_a_projection (l : Z) (ciphertext ux uy ux' uy' : Polynomial) :
  modulus_ok l ->
  in_field l (Proc.decrypt l ciphertext ux uy) /\
  Proc.decrypt l (Proc.decrypt l ciphertext ux uy) ux' uy'
  = Proc.decrypt l ciphertext ux uy.
Proof.
  intros Hl. split; [now apply decrypt_in_field |].
  apply decrypt_reduced; [exact Hl | now apply decrypt_in_field].
Qed.

Lemma decrypt_is_a_projection_witness :
  modulus_ok 4 /\
  in_field 4 (Proc.decrypt 4 [5; -6; 7; 16] [1] [2]) /\
  Proc.decrypt 4 (Proc.decrypt 4 [5; -6; 7; 16] [1] [2]) [3] []
  = Proc.decrypt 4 [5; -6; 7; 16] [1] [2].
Proof.
  assert (Hl : modulus_ok 4) by (unfold modulus_ok; lia).
  split; [exact Hl |].
  apply (decrypt_is_a_projection 4 [5; -6; 7; 16] [1] [2] [3] [] Hl).
Defined.

Lemma encrypt_reduced (q n : Z) (message public_key : Polynomial)
    (params : Proc.GiophantusParams) (gen : Rng) :
  modulus_ok q -> dimension_ok n -> encrypt_params_ok params ->
  Z.of_nat (length public_key) <= INT_MAX ->
  exists ciphertext gen',
    Proc.encrypt q n message public_key params gen = Some (ciphertext, gen') /\
    length ciphertext = Z.to_nat n /\ in_field q ciphertext.
Proof.
  intros Hq Hn Hok Hpk.
  destruct (encrypt_runs q n message public_key params gen Hq Hn Hok Hpk)
    as (c & g' & E & _).
  exists c, g'. split; [exact E |].
  unfold Proc.encrypt in E.
  destruct (Proc.random_polynomial _ _ gen) as [[r g1] |]; [| discriminate].
  simpl in E.
  destruct (Proc.random_polynomial _ _ g1) as [[e g2] |]; [| discriminate].
  simpl in E.
  destruct (Proc.op_times q public_key r) as [product |]; [| discriminate].
  simpl in E.
  destruct (Proc.mod_tn q n product) as [mask |]; [| discriminate].
  simpl in E.
  destruct (Proc.mod_tn q n _) as [c' |] eqn:Ec; [| discriminate].
  simpl in E. injection E as <- _.
  exact (mod_tn_result q n Hq Hn _ c' Ec).
Qed.

(** X19.  Every ciphertext returned by [encrypt] is a reduced ring
    element: it has [n] coefficients, all in [[0, q)], it is left unchanged
    by [mod_tn], and its decryption has [n] coefficients in [[0, l)]. *)
Theorem ciphertext_is_reduced
    (q n l : Z) (message public_key ux uy : Polynomial)
    (params : Proc.GiophantusParams) (gen : Rng) :
  modulus_ok q -> dimension_ok n -> modulus_ok l -> encrypt_params_ok params ->
  Z.of_nat (length public_key) <= INT_MAX ->
  exists ciphertext gen',
    Proc.encrypt q n message public_key params gen = Some (ciphertext, gen') /\
    Z.of_nat (length ciphertext) = n /\ in_field q ciphertext /\
    Proc.mod_tn q n ciphertext = Some ciphertext /\
    Z.of_nat (length (Proc.decrypt l ciphertext ux uy)) = n /\
    in_field l (Proc.decrypt l ciphertext ux uy).
Proof.
  intros Hq Hn Hl Hok Hpk.
  destruct (encrypt_reduced q n message public_key params gen Hq Hn Hok Hpk)
    as (c & g' & E & Hlen & Hf).
  exists c, g'. split; [exact E |].
  assert (Hn' : 1 <= n) by (unfold dimension_ok in Hn; lia).
  split; [lia |]. split; [exact Hf |]. split; [now apply mod_tn_reduced |].
  split; [| now apply decrypt_in_field].
  destruct (decrypt_spec l c ux uy) as [Hd _]. lia.
Qed.

Lemma ciphertext_is_reduced_witness :
  (modulus_ok 17 /\ dimension_ok 11 /\ modulus_ok 4 /\ encrypt_params_ok Proc.param128 /\
   Z.of_nat (length [6; 7; 8]) <= INT_MAX) /\
  exists ciphertext gen',
    Proc.encrypt 17 11 [1; 0; 3] [6; 7; 8] Proc.param128 (mkRng (fun k => Z.of_nat k) 25)
    = Some (ciphertext, gen') /\
    Z.of_nat (length ciphertext) = 11 /\ in_field 17 ciphertext /\
    Proc.mod_tn 17 11 ciphertext = Some ciphertext /\
    Z.of_nat (length (Proc.decrypt 4 ciphertext [0; 1] [3])) = 11 /\
    in_field 4 (Proc.decrypt 4 ciphertext [0; 1] [3]).
Proof.
  assert (Hq : modulus_ok 17) by (unfold modulus_ok; lia).
  assert (Hn : dimension_ok 11) by (unfold dimension_ok, INT_MAX; lia).
  assert (Hl : modulus_ok 4) by (unfold modulus_ok; lia).
  assert (Hok : encrypt_params_ok Proc.param128).
  { unfold encrypt_params_ok, INT_MAX. simpl. lia. }
  assert (Hpk : Z.of_nat (length [6; 7; 8]) <= INT_MAX) by (unfold INT_MAX; simpl; lia).
  split; [auto 6 |].
  apply (ciphertext_is_reduced 17 11 4 [1; 0; 3] [6; 7; 8] [0; 1] [3] Proc.param128
           (mkRng (fun k => Z.of_nat k) 25) Hq Hn Hl Hok Hpk).
Defined.

(** X20.  The ciphertext is the sum of three reduced polynomials: the
    remainder of the message, the mask [mod_tn(public_key * r)] and the
    remainder of the noise [e]; the outer [mod_tn] of [encrypt] distributes
    over the two additions. *)
Theorem ciphertext_decomposes
    (q n : Z) (message public_key : Polynomial)
    (params : Proc.GiophantusParams) (gen : Rng) :
  product_modulus_ok q -> dimension_ok n -> encrypt_params_ok params ->
  Proc.Params.l params <= 46341 -> Forall small message ->
  Z.of_nat (length public_key) <= INT_MAX ->
  exists r g1 e g2 product mask Rm Re,
    Proc.random_polynomial (Proc.Params.dr params)
      (wrap_int (Proc.Params.q params - 1)) gen = Some (r, g1) /\
    Proc.random_polynomial (wrap_int (Proc.Params.dX params + Proc.Params.dr params))
      (wrap_int (Proc.Params.l params - 1)) g1 = Some (e, g2) /\
    Proc.op_times q public_key r = Some product /\
    Proc.mod_tn q n product = Some mask /\
    Proc.mod_tn q n message = Some Rm /\
    Proc.mod_tn q n e = Some Re /\
    Proc.encrypt q n message public_key params gen
    = Some (Proc.op_plus q (Proc.op_plus q Rm mask) Re, g2).
Proof.
  intros Hpm Hn Hok Hl Hm Hpk. pose proof (product_modulus_is_modulus q Hpm) as Hq.
  assert (Hok' := Hok). destruct Hok' as (Hdr & HdX & Hsum & Hpq & Hpl).
  unfold INT_MAX in Hdr, Hsum, Hpq, Hpl.
  rewrite !wrap_int_id by (unfold INT_MIN, INT_MAX; lia).
  destruct (random_polynomial_spec (Proc.Params.dr params) (Proc.Params.q params - 1) gen)
    as (r & g1 & E1 & Hl1 & _); [unfold INT_MAX; lia .. |].
  destruct (random_polynomial_spec (Proc.Params.dX params + Proc.Params.dr params)
              (Proc.Params.l params - 1) g1)
    as (e & g2 & E2 & Hl2 & Hfe); [unfold INT_MAX; lia .. |].
  assert (He : Forall small e).
  { eapply Forall_impl; [exact Hfe |]. simpl. unfold small. lia. }
  destruct (poly_mul_some q public_key r) as (product & Ep & _).
  { unfold product_fits, vector_max_size, INT_MAX in *. lia. }
  destruct (mod_tn_length q n product Hq Hn) as (mask & Em & _).
  destruct (mod_tn_result q n Hq Hn product mask Em) as [Hlm Hfm].
  pose proof (in_field_small q mask Hpm Hfm) as Hsm.
  destruct (mod_tn_additive q n message mask Hq Hn Hm Hsm) as (Rm & Rmask & ERm & ERmask & Esum1).
  rewrite (mod_tn_reduced q n Hq Hn mask Hlm Hfm) in ERmask. injection ERmask as <-.
  pose proof (in_field_small q _ Hpm (poly_add_in_field q message mask Hq)) as Hs1.
  destruct (mod_tn_additive q n (Proc.op_plus q message mask) e Hq Hn Hs1 He)
    as (R1 & Re & ER1 & ERe & Esum2).
  rewrite Esum1 in ER1. injection ER1 as <-.
  exists r, g1, e, g2, product, mask, Rm, Re.
  repeat (split; [assumption |]).
  unfold Proc.encrypt. rewrite !wrap_int_id by (unfold INT_MIN, INT_MAX; lia).
  rewrite E1. simpl. rewrite E2. simpl. unfold Proc.op_times at 1. rewrite Ep. simpl.
  rewrite Em. simpl. rewrite Esum2. reflexivity.
Qed.

Lemma ciphertext_decomposes_witness :
  (product_modulus_ok 17 /\ dimension_ok 11 /\ encrypt_params_ok Proc.param128 /\
   Proc.Params.l Proc.param128 <= 46341 /\ Forall small [1; 0; 3] /\
   Z.of_nat (length [6; 7; 8]) <= INT_MAX) /\
  exists r g1 e g2 product mask Rm Re,
    Proc.random_polynomial (Proc.Params.dr Proc.param128)
      (wrap_int (Proc.Params.q Proc.param128 - 1)) (mkRng (fun k => Z.of_nat k) 25)
    = Some (r, g1) /\
    Proc.random_polynomial
      (wrap_int (Proc.Params.dX Proc.param128 + Proc.Params.dr Proc.param128))
      (wrap_int (Proc.Params.l Proc.param128 - 1)) g1 = Some (e, g2) /\
    Proc.op_times 17 [6; 7; 8] r = Some product /\
    Proc.mod_tn 17 11 product = Some mask /\
    Proc.mod_tn 17 11 [1; 0; 3] = Some Rm /\
    Proc.mod_tn 17 11 e = Some Re /\
    Proc.encrypt 17 11 [1; 0; 3] [6; 7; 8] Proc.param128 (mkRng (fun k => Z.of_nat k) 25)
    = Some (Proc.op_plus 17 (Proc.op_plus 17 Rm mask) Re, g2).
Proof.
  assert (Hq : product_modulus_ok 17) by (unfold product_modulus_ok; lia).
  assert (Hn : dimension_ok 11) by (unfold dimension_ok, INT_MAX; lia).
  assert (Hok : encrypt_params_ok Proc.param128).
  { unfold encrypt_params_ok, INT_MAX. simpl. lia. }
  assert (Hl : Proc.Params.l Proc.param128 <= 46341) by (simpl; lia).
  assert (Hm : Forall small [1; 0; 3]) by (repeat constructor; unfold small; lia).
  assert (Hpk : Z.of_nat (length [6; 7; 8]) <= INT_MAX) by (unfold INT_MAX; simpl; lia).
  split; [auto 7 |].
  apply (ciphertext_decomposes 17 11 [1; 0; 3] [6; 7; 8] Proc.param128
           (mkRng (fun k => Z.of_nat k) 25) Hq Hn Hok Hl Hm Hpk).
Defined.

(** ** The test functions and [main] of [main.cpp] *)

Lemma test_keygen_passes (params : OOP.GiophantusParams) (gen : Rng) :
  0 <= OOP.Params.degree params < INT_MAX ->
  0 <= OOP.Params.noise_bound params ->
  1 <= OOP.Params.modulo params <= INT_MAX ->
  OOP.test_keygen params gen = OOP.Passed.
Proof.
  intros Hd Hb Hm.
  destruct (oop_keygen_runs params gen Hd Hb Hm)
    as (key & gen' & E & [Hlx _] & [Hly _] & _).
  unfold OOP.test_keygen. rewrite E.
  rewrite (degree_of_length (OOP.ux key) (OOP.Params.degree params)) by lia.
  rewrite (degree_of_length (OOP.uy key) (OOP.Params.degree params)) by lia.
  now rewrite Z.leb_refl.
Qed.

Lemma test_polynomial_operations_runs (params : OOP.GiophantusParams) (gen : Rng) :
  0 <= OOP.Params.degree params < INT_MAX ->
  0 <= OOP.Params.noise_bound params ->
  exists sum product,
    OOP.test_polynomial_operations params gen = Some (sum, product) /\
    Z.of_nat (length sum) = OOP.Params.degree params + 1 /\
    Z.of_nat (length product) = 2 * OOP.Params.degree params + 1 /\
    in_field OOP.MODULO sum /\ in_field OOP.MODULO product.
Proof.
  intros Hd Hb.
  assert (H17 : modulus_ok OOP.MODULO) by (unfold modulus_ok, OOP.MODULO; lia).
  destruct (generate_spec (OOP.Params.degree params) (OOP.Params.noise_bound params) gen)
    as (p1 & g1 & E1 & Hl1 & _); trivial.
  destruct (generate_spec (OOP.Params.degree params) (OOP.Params.noise_bound params) g1)
    as (p2 & g2 & E2 & Hl2 & _); trivial.
  destruct (poly_mul_in_field OOP.MODULO p1 p2 H17) as (product & Ep & Hlp & Hfp).
  { unfold product_fits, vector_max_size, INT_MAX in *. lia. }
  exists (OOP.op_plus p1 p2), product.
  unfold OOP.test_polynomial_operations. rewrite E1. simpl. rewrite E2. simpl.
  unfold OOP.op_times. rewrite Ep. simpl. split; [reflexivity |].
  split; [unfold OOP.op_plus; rewrite poly_add_length; lia |].
  split; [lia |]. split; [now apply poly_add_in_field | exact Hfp].
Qed.

(** X21.  The two assertions of [test_keygen] hold for every parameter set
    with a degree in [[0, INT_MAX)], a non-negative noise bound and a
    positive modulus, and for every state of the generator: the function
    returns without failing an assertion and without an exception. *)
Theorem test_keygen_never_fails (params : OOP.GiophantusParams) (gen : Rng) :
  0 <= OOP.Params.degree params < INT_MAX ->
  0 <= OOP.Params.noise_bound params ->
  1 <= OOP.Params.modulo params <= INT_MAX ->
  OOP.test_keygen params gen = OOP.Passed.
Proof. apply test_keygen_passes. Qed.

Lemma test_keygen_never_fails_witness :
  (0 <= OOP.Params.degree OOP.param256 < INT_MAX /\
   0 <= OOP.Params.noise_bound OOP.param256 /\
   1 <= OOP.Params.modulo OOP.param256 <= INT_MAX) /\
  OOP.test_keygen OOP.param256 (mkRng (fun k => Z.of_nat k * 11) 3) = OOP.Passed.
Proof.
  assert (Hd : 0 <= OOP.Params.degree OOP.param256 < INT_MAX).
  { unfold INT_MAX. simpl. lia. }
  assert (Hb : 0 <= OOP.Params.noise_bound OOP.param256) by (simpl; lia).
  assert (Hm : 1 <= OOP.Params.modulo OOP.param256 <= INT_MAX).
  { unfold INT_MAX. simpl. lia. }
  split; [auto |].
  apply (test_keygen_never_fails OOP.param256 (mkRng (fun k => Z.of_nat k * 11) 3) Hd Hb Hm).
Defined.

(** X22.  [test_polynomial_operations] never throws: two polynomials drawn
    with a degree bound [d >= 0] are not empty, so their product is
    defined; the sum has [d + 1] and the product [2 d + 1] coefficients,
    all normalised modulo 17 whatever the modulus of the parameter set. *)
Theorem test_polynomial_operations_never_throws
    (params : OOP.GiophantusParams) (gen : Rng) :
  0 <= OOP.Params.degree params < INT_MAX ->
  0 <= OOP.Params.noise_bound params ->
  exists sum product,
    OOP.test_polynomial_operations params gen = Some (sum, product) /\
    Z.of_nat (length sum) = OOP.Params.degree params + 1 /\
    Z.of_nat (length product) = 2 * OOP.Params.degree params + 1 /\
    in_field 17 sum /\ in_field 17 product.
Proof. apply test_polynomial_operations_runs. Qed.

Lemma test_polynomial_operations_never_throws_witness :
  (0 <= OOP.Params.degree OOP.param192 < INT_MAX /\
   0 <= OOP.Params.noise_bound OOP.param192) /\
  exists sum product,
    OOP.test_polynomial_operations OOP.param192 (mkRng (fun k => Z.of_nat k * 5) 1)
    = Some (sum, product) /\
    Z.of_nat (length sum) = OOP.Params.degree OOP.param192 + 1 /\
    Z.of_nat (length product) = 2 * OOP.Params.degree OOP.param192 + 1 /\
    in_field 17 sum /\ in_field 17 product.
Proof.
  assert (Hd : 0 <= OOP.Params.degree OOP.param192 < INT_MAX).
  { unfold INT_MAX. simpl. lia. }
  assert (Hb : 0 <= OOP.Params.noise_bound OOP.param192) by (simpl; lia).
  split; [auto |].
  apply (test_polynomial_operations_never_throws OOP.param192
           (mkRng (fun k => Z.of_nat k * 5) 1) Hd Hb).
Defined.

(** X23.  [main] of [main.cpp] runs its six tests to the end and returns
    0, whatever the six generators are seeded with: no assertion fails and
    no exception is thrown. *)
Theorem main_returns_normally (device : nat -> Rng) : OOP.main device = OOP.Passed.
Proof.
  unfold OOP.main.
  assert (Hk : forall params gen,
             0 <= OOP.Params.degree params < INT_MAX ->
             0 <= OOP.Params.noise_bound params ->
             1 <= OOP.Params.modulo params <= INT_MAX ->
             OOP.test_keygen params gen = OOP.Passed /\
             OOP.ran (OOP.test_polynomial_operations params gen) = OOP.Passed).
  { intros params gen Hd Hb Hm. split; [now apply test_keygen_passes |].
    destruct (test_polynomial_operations_runs params gen Hd Hb) as (s & p & E & _).
    now rewrite E. }
  assert (H128 : forall gen, OOP.test_keygen OOP.param128 gen = OOP.Passed /\
                             OOP.ran (OOP.test_polynomial_operations OOP.param128 gen)
                             = OOP.Passed).
  { intros gen. apply Hk; unfold INT_MAX; simpl; lia. }
  assert (H192 : forall gen, OOP.test_keygen OOP.param192 gen = OOP.Passed /\
                             OOP.ran (OOP.test_polynomial_operations OOP.param192 gen)
                             = OOP.Passed).
  { intros gen. apply Hk; unfold INT_MAX; simpl; lia. }
  assert (H256 : forall gen, OOP.test_keygen OOP.param256 gen = OOP.Passed /\
                             OOP.ran (OOP.test_polynomial_operations OOP.param256 gen)
                             = OOP.Passed).
  { intros gen. apply Hk; unfold INT_MAX; simpl; lia. }
  rewrite (proj1 (H128 (device 0%nat))), (proj2 (H128 (device 1%nat))),
    (proj1 (H192 (device 2%nat))), (proj2 (H192 (device 3%nat))),
    (proj1 (H256 (device 4%nat))), (proj2 (H256 (device 5%nat))).
  reflexivity.
Qed.

(** ** The constructor *)

(** X24.  [Polynomial(d)] is the zero polynomial with [d + 1] coefficients
    for [0 <= d < INT_MAX]: its degree is [d] and it trims to the empty
    polynomial; the default [Polynomial()] is [[0]], of degree 0, not the
    empty polynomial; [Polynomial(-1)] is empty; and for an [int]
    [e < -1] the constructor throws. *)
Theorem constructor_builds_zero_polynomials (d e : Z) :
  0 <= d < INT_MAX -> INT_MIN <= e < -1 ->
  (exists A, Polynomial_of_degree d = Some A /\
             degree A = d /\ Forall (fun c => c = 0) A /\ trim A = []) /\
  Polynomial_of_degree 0 = Some [0] /\
  Polynomial_of_degree (-1) = Some [] /\
  Polynomial_of_degree e = None.
Proof.
  intros Hd He. split; [| split; [reflexivity | split; [reflexivity |]]].
  - exists (replicate (Z.to_nat (d + 1)) 0). split; [now apply sized_vector |].
    split; [| split].
    + apply degree_of_length; [| lia]. rewrite length_replicate. lia.
    + apply List.Forall_forall. intros c Hc.
      apply list_elem_of_In, elem_of_replicate in Hc. tauto.
    + apply trim_zeros.
  - unfold Polynomial_of_degree, INT_MIN in *.
    rewrite wrap_int_id by (unfold INT_MIN, INT_MAX; lia).
    unfold to_size_t, new_vector, vector_max_size.
    replace ((e + 1) mod 2 ^ 64) with (e + 1 + 2 ^ 64).
    + destruct (Z.leb_spec (e + 1 + 2 ^ 64) (2 ^ 61 - 1)); [lia | reflexivity].
    + symmetry. rewrite <- (Z.mod_add _ 1) by lia.
      rewrite Z.mul_1_l. apply Z.mod_small. lia.
Qed.

Lemma constructor_builds_zero_polynomials_witness :
  (0 <= 11 < INT_MAX /\ INT_MIN <= -5 < -1) /\
  (exists A, Polynomial_of_degree 11 = Some A /\
             degree A = 11 /\ Forall (fun c => c = 0) A /\ trim A = []) /\
  Polynomial_of_degree 0 = Some [0] /\
  Polynomial_of_degree (-1) = Some [] /\
  Polynomial_of_degree (-5) = None.
Proof.
  assert (Hd : 0 <= 11 < INT_MAX) by (unfold INT_MAX; lia).
  assert (He : INT_MIN <= -5 < -1) by (unfold INT_MIN; lia).
  split; [auto |].
  apply (constructor_builds_zero_polynomials 11 (-5) Hd He).
Defined.

(** ** The public polynomial of [main.cpp] *)

(** X25.  The public polynomial returned by [GiophantusKeyGen::generate]
    has [params.degree + 1] coefficients, like the secrets, and its
    coefficients range over the whole field [[0, params.modulo - 1]] of
    the parameter set, the last element included. *)
Theorem oop_public_key_shape (params : OOP.GiophantusParams) (gen : Rng) :
  0 <= OOP.Params.degree params < INT_MAX ->
  0 <= OOP.Params.noise_bound params ->
  1 <= OOP.Params.modulo params <= INT_MAX ->
  exists key gen',
    OOP.keygen_generate params gen = Some (key, gen') /\
    Z.of_nat (length (OOP.X key)) = OOP.Params.degree params + 1 /\
    degree (OOP.X key) = OOP.Params.degree params /\
    in_field (OOP.Params.modulo params) (OOP.X key).
Proof.
  intros Hd Hb Hm.
  destruct (oop_keygen_runs params gen Hd Hb Hm) as (key & gen' & E & _ & _ & [Hl Hf]).
  exists key, gen'. split; [exact E |]. split; [exact Hl |]. split.
  - apply degree_of_length; lia.
  - eapply Forall_impl; [exact Hf |]. simpl. intros c Hc. lia.
Qed.

Lemma oop_public_key_shape_witness :
  (0 <= OOP.Params.degree OOP.param192 < INT_MAX /\
   0 <= OOP.Params.noise_bound OOP.param192 /\
   1 <= OOP.Params.modulo OOP.param192 <= INT_MAX) /\
  exists key gen',
    OOP.keygen_generate OOP.param192 (mkRng (fun k => Z.of_nat k * 3) 0) = Some (key, gen') /\
    Z.of_nat (length (OOP.X key)) = OOP.Params.degree OOP.param192 + 1 /\
    degree (OOP.X key) = OOP.Params.degree OOP.param192 /\
    in_field (OOP.Params.modulo OOP.param192) (OOP.X key).
Proof.
  assert (Hd : 0 <= OOP.Params.degree OOP.param192 < INT_MAX).
  { unfold INT_MAX. simpl. lia. }
  assert (Hb : 0 <= OOP.Params.noise_bound OOP.param192) by (simpl; lia).
  assert (Hm : 1 <= OOP.Params.modulo OOP.param192 <= INT_MAX).
  { unfold INT_MAX. simpl. lia. }
  split; [auto |].
  apply (oop_public_key_shape OOP.param192 (mkRng (fun k => Z.of_nat k * 3) 0) Hd Hb Hm).
Defined.

(** ** The law of the round trip *)

Lemma mod_tn_additive_in_int (q n : Z) (A B : Polynomial) :
  modulus_ok q -> dimension_ok n -> Forall addable A -> Forall addable B ->
  (forall i, INT_MIN <= coeff A i + coeff B i <= INT_MAX) ->
  exists RA RB,
    Proc.mod_tn q n A = Some RA /\ Proc.mod_tn q n B = Some RB /\
    Proc.mod_tn q n (Proc.op_plus q A B) = Some (Proc.op_plus q RA RB).
Proof.
  intros Hq Hn HA HB Hsum.
  set (N := Z.to_nat n).
  destruct (mod_tn_sums q n A Hq Hn HA) as (RA & EA & HlA & HfA & HcA).
  destruct (mod_tn_sums q n B Hq Hn HB) as (RB & EB & HlB & HfB & HcB).
  pose proof (poly_add_in_field q A B Hq) as Hf.
  destruct (mod_tn_sums q n (poly_add q A B) Hq Hn (addable_field q _ Hq Hf))
    as (R & ER & HlR & HfR & HcR).
  exists RA, RB. split; [exact EA |]. split; [exact EB |].
  unfold Proc.op_plus. rewrite ER. f_equal. apply coeff_ext.
  - rewrite poly_add_length. lia.
  - intros k Hk. fold N in HcA, HcB, HcR, HlA, HlB, HlR.
    rewrite HcR by lia. rewrite poly_add_coeff_all by exact Hq.
    rewrite HcA, HcB by lia.
    pose proof (Z.mod_pos_bound (fold_sum A N k (length A)) q) as RA'.
    pose proof (Z.mod_pos_bound (fold_sum B N k (length B)) q) as RB'.
    assert (Hq' := Hq). unfold modulus_ok in Hq'.
    rewrite FieldFacts.add_spec by (unfold INT_MIN, INT_MAX; trivial; lia).
    rewrite <- Zplus_mod.
    set (M := Nat.max (length A) (length B)).
    rewrite poly_add_length. fold M.
    rewrite <- (fold_sum_beyond A N k M), <- (fold_sum_beyond B N k M) by lia.
    unfold fold_sum. rewrite <- sum_upto_add.
    apply sum_upto_mod_congr. intros i Hi.
    destruct (i mod N =? k)%nat; [| reflexivity].
    rewrite poly_add_coeff_all by exact Hq.
    rewrite FieldFacts.add_spec by (trivial; apply Hsum).
    apply Z.mod_mod. lia.
Qed.

Lemma trim_coeff (A : Polynomial) (i : nat) : coeff (trim A) i = coeff A i.
Proof.
  destruct (trim_decompose A) as [k Hk]. rewrite Hk at 2. now rewrite coeff_app_zeros.
Qed.

Lemma trim_last_nonzero (A : Polynomial) :
  (0 < length (trim A))%nat -> coeff (trim A) (length (trim A) - 1) <> 0.
Proof.
  unfold trim. destruct (pop_zeros (rev A)) as [| c r'] eqn:E; [simpl; lia |].
  intros _. apply pop_zeros_head in E. simpl rev.
  rewrite length_app, Nat.add_sub. unfold coeff.
  rewrite app_nth2, Nat.sub_diag by lia. exact E.
Qed.

(** Two polynomials have the same canonical form exactly when they have
    the same coefficients. *)
Lemma trim_eq_iff (A B : Polynomial) :
  trim A = trim B <-> forall i, coeff A i = coeff B i.
Proof.
  split.
  - intros H i. now rewrite <- (trim_coeff A), <- (trim_coeff B), H.
  - intros H.
    assert (Hc : forall i, coeff (trim A) i = coeff (trim B) i).
    { intros i. now rewrite !trim_coeff. }
    apply coeff_ext; [| intros k _; apply Hc].
    destruct (Nat.lt_trichotomy (length (trim A)) (length (trim B))) as [Hlt | [Heq | Hgt]];
      [| exact Heq |]; exfalso.
    + apply (trim_last_nonzero B); [lia |].
      rewrite <- Hc. apply coeff_beyond. lia.
    + apply (trim_last_nonzero A); [lia |].
      rewrite Hc. apply coeff_beyond. lia.
Qed.

(** The ciphertext, for a message over the field: the padded message plus
    the mask plus the remainder of the noise. *)
Lemma encrypt_structure (q n : Z) (message public_key : Polynomial)
    (params : Proc.GiophantusParams) (gen : Rng) :
  modulus_ok q -> dimension_ok n -> encrypt_params_ok params ->
  Proc.Params.l params <= 2 ^ 30 ->
  Z.of_nat (length message) <= n -> in_field q message ->
  Z.of_nat (length public_key) <= INT_MAX ->
  exists r g1 e g2 product mask noise,
    Proc.random_polynomial (Proc.Params.dr params)
      (wrap_int (Proc.Params.q params - 1)) gen = Some (r, g1) /\
    Proc.random_polynomial (wrap_int (Proc.Params.dX params + Proc.Params.dr params))
      (wrap_int (Proc.Params.l params - 1)) g1 = Some (e, g2) /\
    Proc.op_times q public_key r = Some product /\
    Proc.mod_tn q n product = Some mask /\
    Proc.mod_tn q n e = Some noise /\
    (length mask = Z.to_nat n /\ in_field q mask) /\
    (length noise = Z.to_nat n /\ in_field q noise) /\
    Proc.encrypt q n message public_key params gen
    = Some (Proc.op_plus q
              (Proc.op_plus q (message ++ replicate (Z.to_nat n - length message) 0) mask)
              noise, g2).
Proof.
  intros Hq Hn Hok Hl Hlen Hm Hpk.
  assert (Hok' := Hok). destruct Hok' as (Hdr & HdX & Hsum & Hpq & Hpl).
  assert (Hq' := Hq). unfold modulus_ok in Hq'.
  unfold INT_MAX in Hdr, Hsum, Hpq, Hpl.
  rewrite !wrap_int_id by (unfold INT_MIN, INT_MAX; lia).
  destruct (random_polynomial_spec (Proc.Params.dr params) (Proc.Params.q params - 1) gen)
    as (r & g1 & E1 & Hl1 & _); [unfold INT_MAX; lia .. |].
  destruct (random_polynomial_spec (Proc.Params.dX params + Proc.Params.dr params)
              (Proc.Params.l params - 1) g1)
    as (e & g2 & E2 & Hl2 & Hfe); [unfold INT_MAX; lia .. |].
  assert (Hz : 0 <= 0 < Proc.Params.l params - 1) by lia.
  pose proof (Forall_coeff _ e Hz Hfe) as Hce.
  assert (He : Forall addable e).
  { eapply Forall_impl; [exact Hfe |]. simpl. unfold addable. lia. }
  destruct (poly_mul_some q public_key r) as (product & Ep & _).
  { unfold product_fits, vector_max_size, INT_MAX in *. lia. }
  destruct (mod_tn_length q n product Hq Hn) as (mask & Em & _).
  destruct (mod_tn_result q n Hq Hn product mask Em) as [Hlm Hfm].
  assert (Hadd1 : exists RA RB,
             Proc.mod_tn q n message = Some RA /\ Proc.mod_tn q n mask = Some RB /\
             Proc.mod_tn q n (Proc.op_plus q message mask) = Some (Proc.op_plus q RA RB)).
  { apply mod_tn_additive_in_int; trivial; try (now apply (addable_field q)).
    intros i. pose proof (in_field_coeff q Hq message i Hm).
    pose proof (in_field_coeff q Hq mask i Hfm). unfold INT_MIN, INT_MAX. lia. }
  destruct Hadd1 as (Rm & Rmask & ERm & ERmask & Esum1).
  rewrite (mod_tn_reduced q n Hq Hn mask Hlm Hfm) in ERmask. injection ERmask as <-.
  assert (EpadA : Proc.mod_tn q n message
                  = Some (message ++ replicate (Z.to_nat n - length message) 0)).
  { rewrite <- (mod_tn_app_zeros q n Hq Hn message (Z.to_nat n - length message)).
    apply mod_tn_reduced; trivial.
    - rewrite length_app, length_replicate. lia.
    - now apply in_field_app_zeros. }
  rewrite EpadA in ERm. injection ERm as <-.
  pose proof (poly_add_in_field q message mask Hq) as Hf1.
  assert (Hadd2 : exists RA RB,
             Proc.mod_tn q n (Proc.op_plus q message mask) = Some RA /\
             Proc.mod_tn q n e = Some RB /\
             Proc.mod_tn q n (Proc.op_plus q (Proc.op_plus q message mask) e)
             = Some (Proc.op_plus q RA RB)).
  { apply mod_tn_additive_in_int; trivial; [now apply (addable_field q) |].
    intros i. pose proof (in_field_coeff q Hq _ i Hf1) as H1.
    specialize (Hce i). cbv beta in Hce. unfold Proc.op_plus, INT_MIN, INT_MAX. lia. }
  destruct Hadd2 as (R1 & noise & ER1 & ERe & Esum2).
  rewrite Esum1 in ER1. injection ER1 as <-.
  destruct (mod_tn_result q n Hq Hn e noise ERe) as [Hln Hfn].
  exists r, g1, e, g2, product, mask, noise.
  repeat (split; [assumption |]). split; [now split |]. split; [now split |].
  unfold Proc.encrypt. rewrite !wrap_int_id by (unfold INT_MIN, INT_MAX; lia).
  rewrite E1. simpl. rewrite E2. simpl. unfold Proc.op_times at 1. rewrite Ep. simpl.
  rewrite Em. simpl. rewrite Esum2. reflexivity.
Qed.

(** C1 (as amended).  [decrypt] only reduces the ciphertext modulo [l] and
    does not use the secret, so it removes neither the mask nor the noise.
    For every message [m] of length at most [mlen <= n] with coefficients
    in [[0, l)], every public key and every secret, with
    [mask = mod_tn(public_key * r)] and [noise = mod_tn(e)] for the [r] and
    [e] that [encrypt] draws: coefficient [i < n] of
    [decrypt(encrypt(m))] is [((m[i] + mask[i] + noise[i]) mod q) mod l],
    and decryption inverts encryption after trimming exactly when that
    value is [m[i]] for every [i < n]. *)
Theorem round_trip_law
    (q n l : Z) (message public_key ux uy : Polynomial)
    (params : Proc.GiophantusParams) (gen : Rng) :
  modulus_ok q -> dimension_ok n -> 0 < l <= q ->
  encrypt_params_ok params -> Proc.Params.l params <= 2 ^ 30 ->
  Proc.Params.mlen params <= n ->
  Z.of_nat (length message) <= Proc.Params.mlen params -> in_field l message ->
  Z.of_nat (length public_key) <= INT_MAX ->
  exists r g1 e g2 product mask noise ciphertext,
    Proc.random_polynomial (Proc.Params.dr params)
      (wrap_int (Proc.Params.q params - 1)) gen = Some (r, g1) /\
    Proc.random_polynomial (wrap_int (Proc.Params.dX params + Proc.Params.dr params))
      (wrap_int (Proc.Params.l params - 1)) g1 = Some (e, g2) /\
    Proc.op_times q public_key r = Some product /\
    Proc.mod_tn q n product = Some mask /\
    Proc.mod_tn q n e = Some noise /\
    Proc.encrypt q n message public_key params gen = Some (ciphertext, g2) /\
    (forall i, Z.of_nat i < n ->
       coeff (Proc.decrypt l ciphertext ux uy) i
       = ((coeff message i + coeff mask i + coeff noise i) mod q) mod l) /\
    (trim (Proc.decrypt l ciphertext ux uy) = trim message <->
     forall i, Z.of_nat i < n ->
       ((coeff message i + coeff mask i + coeff noise i) mod q) mod l = coeff message i).
Proof.
  intros Hq Hn Hl Hok HlP Hmlen Hm Hfm Hpk.
  assert (Hl' : modulus_ok l) by (unfold modulus_ok in *; lia).
  assert (Hfq : in_field q message) by (apply (in_field_weaken l q); [lia | exact Hfm]).
  assert (Hq' := Hq). unfold modulus_ok in Hq'.
  assert (Hn' := Hn). unfold dimension_ok in Hn'.
  destruct (encrypt_structure q n message public_key params gen Hq Hn Hok HlP)
    as (r & g1 & e & g2 & product & mask & noise & E1 & E2 & Ep & Em & Ee
        & [Hlmask Hfmask] & [Hlnoise Hfnoise] & Eenc); trivial; [lia |].
  set (padded := message ++ replicate (Z.to_nat n - length message) 0) in *.
  set (c := Proc.op_plus q (Proc.op_plus q padded mask) noise) in *.
  assert (Hlc : length c = Z.to_nat n).
  { unfold c, Proc.op_plus, padded.
    rewrite !poly_add_length, length_app, length_replicate. lia. }
  assert (Hcc : forall i,
             coeff c i = (coeff message i + coeff mask i + coeff noise i) mod q).
  { intros i. unfold c, Proc.op_plus. rewrite !poly_add_coeff_all by exact Hq.
    unfold padded. rewrite coeff_app_zeros.
    pose proof (in_field_coeff q Hq message i Hfq) as Hmi.
    pose proof (in_field_coeff q Hq mask i Hfmask) as Hki.
    pose proof (in_field_coeff q Hq noise i Hfnoise) as Hni.
    pose proof (FieldFacts.add_range (coeff message i) (coeff mask i) q Hq) as Hr.
    rewrite (FieldFacts.add_spec _ (coeff noise i))
      by (trivial; unfold INT_MIN, INT_MAX; lia).
    rewrite FieldFacts.add_spec by (trivial; unfold INT_MIN, INT_MAX; lia).
    apply Zplus_mod_idemp_l. }
  destruct (decrypt_spec l c ux uy) as [Hld Hcd].
  assert (Hdec : forall i, Z.of_nat i < n ->
             coeff (Proc.decrypt l c ux uy) i
             = ((coeff message i + coeff mask i + coeff noise i) mod q) mod l).
  { intros i Hi. rewrite Hcd by lia.
    rewrite FieldFacts.mod_spec by exact Hl'. now rewrite Hcc. }
  exists r, g1, e, g2, product, mask, noise, c.
  do 6 (split; [assumption |]). split; [exact Hdec |].
  rewrite trim_eq_iff. split.
  - intros H i Hi. rewrite <- Hdec by exact Hi. apply H.
  - intros H i. destruct (Z.lt_ge_cases (Z.of_nat i) n) as [Hi | Hi].
    + rewrite Hdec by exact Hi. now apply H.
    + rewrite !coeff_beyond by lia. reflexivity.
Qed.

Lemma round_trip_law_witness :
  (modulus_ok 17 /\ dimension_ok 11 /\ 0 < 4 <= 17 /\
   encrypt_params_ok param_small /\ Proc.Params.l param_small <= 2 ^ 30 /\
   Proc.Params.mlen param_small <= 11 /\
   Z.of_nat (length [1; 0; 3]) <= Proc.Params.mlen param_small /\
   in_field 4 [1; 0; 3] /\
   Z.of_nat (length [6; 7; 8]) <= INT_MAX) /\
  exists r g1 e g2 product mask noise ciphertext,
    Proc.random_polynomial (Proc.Params.dr param_small)
      (wrap_int (Proc.Params.q param_small - 1)) (mkRng (fun k => Z.of_nat k) 25)
    = Some (r, g1) /\
    Proc.random_polynomial
      (wrap_int (Proc.Params.dX param_small + Proc.Params.dr param_small))
      (wrap_int (Proc.Params.l param_small - 1)) g1 = Some (e, g2) /\
    Proc.op_times 17 [6; 7; 8] r = Some product /\
    Proc.mod_tn 17 11 product = Some mask /\
    Proc.mod_tn 17 11 e = Some noise /\
    Proc.encrypt 17 11 [1; 0; 3] [6; 7; 8] param_small (mkRng (fun k => Z.of_nat k) 25)
    = Some (ciphertext, g2) /\
    (forall i, Z.of_nat i < 11 ->
       coeff (Proc.decrypt 4 ciphertext [0; 1; 2] [3; 0; 1]) i
       = ((coeff [1; 0; 3] i + coeff mask i + coeff noise i) mod 17) mod 4) /\
    (trim (Proc.decrypt 4 ciphertext [0; 1; 2] [3; 0; 1]) = trim [1; 0; 3] <->
     forall i, Z.of_nat i < 11 ->
       ((coeff [1; 0; 3] i + coeff mask i + coeff noise i) mod 17) mod 4
       = coeff [1; 0; 3] i).
Proof.
  assert (Hq : modulus_ok 17) by (unfold modulus_ok; lia).
  assert (Hn : dimension_ok 11) by (unfold dimension_ok, INT_MAX; lia).
  assert (Hl : 0 < 4 <= 17) by lia.
  assert (Hok : encrypt_params_ok param_small).
  { unfold encrypt_params_ok, INT_MAX. simpl. lia. }
  assert (HlP : Proc.Params.l param_small <= 2 ^ 30) by (simpl; lia).
  assert (Hmlen : Proc.Params.mlen param_small <= 11) by (simpl; lia).
  assert (Hm : Z.of_nat (length [1; 0; 3]) <= Proc.Params.mlen param_small) by (simpl; lia).
  assert (Hfm : in_field 4 [1; 0; 3]) by (unfold in_field; repeat constructor; lia).
  assert (Hpk : Z.of_nat (length [6; 7; 8]) <= INT_MAX) by (unfold INT_MAX; simpl; lia).
  split; [auto 10 |].
  apply (round_trip_law 17 11 4 [1; 0; 3] [6; 7; 8] [0; 1; 2] [3; 0; 1] param_small
           (mkRng (fun k => Z.of_nat k) 25) Hq Hn Hl Hok HlP Hmlen Hm Hfm Hpk).
Defined.
